(** * HPACK header-block decoder (src/hpack/decoder.rs), shallow embedding

    Conventions of the embedding:
    - a [u8] is a [Byte.byte]; its numeric value is [Byte.to_N];
    - a [usize] is an [N]. The values reached by the decoder stay far below
      2^32 (a decoded integer has at most 5 octets, about 2^28), so no
      wrap-around is written out;
    - a [Cursor<&Bytes>] is the list of the bytes not yet consumed;
    - a [VecDeque<Entry>] is a [list Entry] read front (newest) to back
      (oldest);
    - a Rust panic ([expect], [unreachable!], slice index out of bounds) is
      the outcome [RPanic], kept apart from the [DecoderError]s that [decode]
      returns. *)

From Stdlib Require Import List Arith NArith Bool Lia String Ascii.
From Stdlib Require Import Strings.Byte.
Import ListNotations.
Open Scope N_scope.

(** ** Errors and outcomes *)

Inductive DecoderError :=
| InvalidRepresentation
| InvalidIntegerPrefix
| InvalidTableIndex
| InvalidHuffmanCode
| InvalidUtf8
| InvalidStatusCode
| InvalidPseudoheader
| InvalidMaxDynamicSize
| IntegerUnderflow
| IntegerOverflow
| StringUnderflow.

(** [Result<A, DecoderError>], plus the outcome of a panic. *)
Inductive res (A : Type) :=
| ROk (a : A)
| RErr (e : DecoderError)
| RPanic.
Arguments ROk {A} a.
Arguments RErr {A} e.
Arguments RPanic {A}.

(** The [try!] of the source. *)
Definition rbind {A B} (m : res A) (k : A -> res B) : res B :=
  match m with
  | ROk a => k a
  | RErr e => RErr e
  | RPanic => RPanic
  end.

(** ** Entries (src/hpack/header.rs, not part of this file set) *)

(** Modelled from the spec: the [Entry] type of the [hpack] module (spec
    section 3, "Entry"). A method is kept as its token, a status as its
    numeric code; byte strings are lists of bytes. *)
Inductive Entry :=
| Authority (v : list byte)
| Method (m : list byte)
| Scheme (v : list byte)
| Path (v : list byte)
| Status (code : N)
| Header (name : list byte) (value : list byte).

(** Modelled from the spec: [Entry::len], the RFC 7541 section 4.1 size
    [len(name) + len(value) + 32], with the pseudo-header name lengths the
    spec fixes (a status code is always three digits). *)
Definition entry_len (e : Entry) : N :=
  match e with
  | Header name value => 32 + N.of_nat (List.length name) + N.of_nat (List.length value)
  | Authority v => 32 + 10 + N.of_nat (List.length v)
  | Method m => 32 + 7 + N.of_nat (List.length m)
  | Scheme v => 32 + 7 + N.of_nat (List.length v)
  | Path v => 32 + 5 + N.of_nat (List.length v)
  | Status _ => 32 + 7 + 3
  end.

Definition bs (s : string) : list byte := list_byte_of_string s.

(** ** [Representation] and [Representation::load] *)

Inductive Representation :=
| Indexed
| LiteralWithIndexing
| LiteralWithoutIndexing
| LiteralNeverIndexed
| SizeUpdate.

Definition INDEXED : N := 128.                  (* 0b10000000 *)
Definition LITERAL_WITH_INDEXING : N := 64.     (* 0b01000000 *)
Definition LITERAL_WITHOUT_INDEXING : N := 240. (* 0b11110000 *)
Definition LITERAL_NEVER_INDEXED : N := 16.     (* 0b00010000 *)
Definition SIZE_UPDATE_MASK : N := 224.         (* 0b11100000 *)
Definition SIZE_UPDATE : N := 32.               (* 0b00100000 *)

Definition load (byte : byte) : res Representation :=
  let b := Byte.to_N byte in
  if N.land b INDEXED =? INDEXED then ROk Indexed
  else if N.land b LITERAL_WITH_INDEXING =? LITERAL_WITH_INDEXING
  then ROk LiteralWithIndexing
  else if N.land b LITERAL_WITHOUT_INDEXING =? 0 then ROk LiteralWithoutIndexing
  else if N.land b LITERAL_WITHOUT_INDEXING =? LITERAL_NEVER_INDEXED
  then ROk LiteralNeverIndexed
  else if N.land b SIZE_UPDATE_MASK =? SIZE_UPDATE then ROk SizeUpdate
  else RErr InvalidRepresentation.

(** ** Primitives: [decode_int], [peek_u8], [take] *)

Definition MAX_BYTES : nat := 5.
Definition VARINT_MASK : N := 127. (* 0b01111111 *)
Definition VARINT_FLAG : N := 128. (* 0b10000000 *)

(** The [while buf.has_remaining()] loop of [decode_int], with its locals
    [ret], [bytes] and [shift]. *)
Fixpoint decode_int_loop (buf : list byte) (ret : N) (bytes : nat) (shift : N)
  : res (N * list byte) :=
  match buf with
  | [] => RErr IntegerUnderflow
  | b :: buf =>
      let bytes := S bytes in
      let ret := ret + N.shiftl (N.land (Byte.to_N b) VARINT_MASK) shift in
      let shift := shift + 7 in
      if N.land (Byte.to_N b) VARINT_FLAG =? 0 then ROk (ret, buf)
      else if Nat.eqb bytes MAX_BYTES then RErr IntegerOverflow
      else decode_int_loop buf ret bytes shift
  end.

(** [(1u8 << prefix_size).wrapping_sub(1)], or [0xFF] for a prefix of 8. *)
Definition prefix_mask (prefix_size : N) : N :=
  if prefix_size =? 8 then 255
  else (N.shiftl 1 prefix_size mod 256 + 255) mod 256.

Definition decode_int (buf : list byte) (prefix_size : N) : res (N * list byte) :=
  if (prefix_size <? 1) || (8 <? prefix_size) then RErr InvalidIntegerPrefix
  else
    match buf with
    | [] => RErr IntegerUnderflow
    | b :: buf =>
        let mask := prefix_mask prefix_size in
        let ret := N.land (Byte.to_N b) mask in
        if ret <? mask then ROk (ret, buf)
        else decode_int_loop buf ret 1 0
    end.

(** [buf.bytes()[0]]: indexing an empty slice panics. *)
Definition peek_u8 (buf : list byte) : res byte :=
  match buf with
  | [] => RPanic
  | b :: _ => ROk b
  end.

(** [take(buf, n)], called only once [n <= buf.remaining()] is checked. *)
Definition take (buf : list byte) (n : N) : list byte * list byte :=
  (firstn (N.to_nat n) buf, skipn (N.to_nat n) buf).

(** ** The static table, [get_static] *)

Definition get_static (idx : N) : option Entry :=
  match N.to_nat idx with
  | 1%nat => Some (Authority (bs ""))
  | 2%nat => Some (Method (bs "GET"))
  | 3%nat => Some (Method (bs "POST"))
  | 4%nat => Some (Path (bs "/"))
  | 5%nat => Some (Path (bs "/index.html"))
  | 6%nat => Some (Scheme (bs "http"))
  | 7%nat => Some (Scheme (bs "https"))
  | 8%nat => Some (Status 200)
  | 9%nat => Some (Status 204)
  | 10%nat => Some (Status 206)
  | 11%nat => Some (Status 304)
  | 12%nat => Some (Status 400)
  | 13%nat => Some (Status 404)
  | 14%nat => Some (Status 500)
  | 15%nat => Some (Header (bs "accept-charset") (bs ""))
  | 16%nat => Some (Header (bs "accept-encoding") (bs "gzip, deflate"))
  | 17%nat => Some (Header (bs "accept-language") (bs ""))
  | 18%nat => Some (Header (bs "accept-ranges") (bs ""))
  | 19%nat => Some (Header (bs "accept") (bs ""))
  | 20%nat => Some (Header (bs "access-control-allow-origin") (bs ""))
  | 21%nat => Some (Header (bs "age") (bs ""))
  | 22%nat => Some (Header (bs "allow") (bs ""))
  | 23%nat => Some (Header (bs "authorization") (bs ""))
  | 24%nat => Some (Header (bs "cache-control") (bs ""))
  | 25%nat => Some (Header (bs "content-disposition") (bs ""))
  | 26%nat => Some (Header (bs "content-encoding") (bs ""))
  | 27%nat => Some (Header (bs "content-language") (bs ""))
  | 28%nat => Some (Header (bs "content-length") (bs ""))
  | 29%nat => Some (Header (bs "content-location") (bs ""))
  | 30%nat => Some (Header (bs "content-range") (bs ""))
  | 31%nat => Some (Header (bs "content-type") (bs ""))
  | 32%nat => Some (Header (bs "cookie") (bs ""))
  | 33%nat => Some (Header (bs "date") (bs ""))
  | 34%nat => Some (Header (bs "etag") (bs ""))
  | 35%nat => Some (Header (bs "expect") (bs ""))
  | 36%nat => Some (Header (bs "expires") (bs ""))
  | 37%nat => Some (Header (bs "from") (bs ""))
  | 38%nat => Some (Header (bs "host") (bs ""))
  | 39%nat => Some (Header (bs "if-match") (bs ""))
  | 40%nat => Some (Header (bs "if-modified-since") (bs ""))
  | 41%nat => Some (Header (bs "if-none-match") (bs ""))
  | 42%nat => Some (Header (bs "if-range") (bs ""))
  | 43%nat => Some (Header (bs "if-unmodified-since") (bs ""))
  | 44%nat => Some (Header (bs "last-modified") (bs ""))
  | 45%nat => Some (Header (bs "link") (bs ""))
  | 46%nat => Some (Header (bs "location") (bs ""))
  | 47%nat => Some (Header (bs "max-forwards") (bs ""))
  | 48%nat => Some (Header (bs "proxy-authenticate") (bs ""))
  | 49%nat => Some (Header (bs "proxy-authorization") (bs ""))
  | 50%nat => Some (Header (bs "range") (bs ""))
  | 51%nat => Some (Header (bs "referer") (bs ""))
  | 52%nat => Some (Header (bs "refresh") (bs ""))
  | 53%nat => Some (Header (bs "retry-after") (bs ""))
  | 54%nat => Some (Header (bs "server") (bs ""))
  | 55%nat => Some (Header (bs "set-cookie") (bs ""))
  | 56%nat => Some (Header (bs "strict-transport-security") (bs ""))
  | 57%nat => Some (Header (bs "transfer-encoding") (bs ""))
  | 58%nat => Some (Header (bs "user-agent") (bs ""))
  | 59%nat => Some (Header (bs "vary") (bs ""))
  | 60%nat => Some (Header (bs "via") (bs ""))
  | 61%nat => Some (Header (bs "www-authenticate") (bs ""))
  | _ => None (* unreachable!() *)
  end.

(** ** The dynamic [Table] *)

Record Table := mkTable {
  entries : list Entry;  (* front = newest *)
  size : N;
  max_size : N
}.

Definition table_new (max_size : N) : Table := mkTable [] 0 max_size.

Definition get (t : Table) (index : N) : res Entry :=
  if index =? 0 then RErr InvalidTableIndex
  else if index <=? 61 then
    match get_static index with
    | Some e => ROk e
    | None => RPanic
    end
  else
    match nth_error (entries t) (N.to_nat (index - 62)) with
    | Some e => ROk e
    | None => RErr InvalidTableIndex
    end.

(** The eviction loop of [Table::reserve], walking the deque from its back:
    [back] is the deque listed oldest first, so its head is [entries.back()].
    [None] is the panic of [pop_back().expect(..)]. *)
Fixpoint reserve_loop (back : list Entry) (size need max_size : N)
  : option (list Entry * N) :=
  if max_size <? size + need then
    match back with
    | [] => None
    | last :: back => reserve_loop back (size - entry_len last) need max_size
    end
  else Some (back, size).

(** [Table::reserve] (release build: the [debug_assert!] is compiled out;
    in a debug build it panics on [size > max_size] before the loop). *)
Definition reserve (t : Table) (need : N) : option Table :=
  match reserve_loop (rev (entries t)) (size t) need (max_size t) with
  | None => None
  | Some (back, size) => Some (mkTable (rev back) size (max_size t))
  end.

Definition insert (t : Table) (entry : Entry) : option Table :=
  let len := entry_len entry in
  match reserve t len with
  | None => None
  | Some t => Some (mkTable (entry :: entries t) (size t + len) (max_size t))
  end.

(** The loop of [Table::consolidate], again walking from the back; [None]
    is the [panic!] of an empty deque with [size > max_size]. *)
Fixpoint consolidate_loop (back : list Entry) (size max_size : N)
  : option (list Entry * N) :=
  if max_size <? size then
    match back with
    | [] => None
    | last :: back => consolidate_loop back (size - entry_len last) max_size
    end
  else Some (back, size).

Definition consolidate (t : Table) : option Table :=
  match consolidate_loop (rev (entries t)) (size t) (max_size t) with
  | None => None
  | Some (back, size) => Some (mkTable (rev back) size (max_size t))
  end.

(** [Table::set_max_size] (its parameter [size] renamed [new_max], the
    field [size] being in scope). *)
Definition set_max_size (t : Table) (new_max : N) : option Table :=
  consolidate (mkTable (entries t) (size t) new_max).

(** ** [Decoder], [new], [queue_size_update] *)

Record Decoder := mkDecoder {
  max_size_update : option N;
  table : Table
}.

Definition new (size : N) : Decoder := mkDecoder None (table_new size).

Definition queue_size_update (d : Decoder) (size : N) : Decoder :=
  let size :=
    match max_size_update d with
    | Some v => N.min v size
    | None => size
    end in
  mkDecoder (Some size) (table d).

(** [impl Default for Decoder]: [Decoder::new(4096)]. *)
Definition default : Decoder := new 4096.

(** ** The state of a [decode] call

    [self], the cursor [buf] and the entries handed to the sink [f] so far,
    in the order of the calls. A computation returns its outcome together
    with the state at the point it stopped (for an error: the state the
    [return Err(..)] leaves behind). *)
Record St := mkSt {
  dec : Decoder;
  buf : list byte;
  out : list Entry
}.

Definition M (A : Type) : Type := St -> res A * St.

Definition ret {A} (a : A) : M A := fun s => (ROk a, s).

Definition bind {A B} (m : M A) (k : A -> M B) : M B :=
  fun s =>
    match m s with
    | (ROk a, s') => k a s'
    | (RErr e, s') => (RErr e, s')
    | (RPanic, s') => (RPanic, s')
    end.

Notation "x <- m ;; k" := (bind m (fun x => k))
  (at level 61, m at next level, right associativity).
Notation "m ;;; k" := (bind m (fun _ => k))
  (at level 61, right associativity).

Definition throw {A} (e : DecoderError) : M A := fun s => (RErr e, s).
Definition panic {A} : M A := fun s => (RPanic, s).

Definition liftr {A} (m : res A) : M A :=
  fun s =>
    match m with
    | ROk a => (ROk a, s)
    | RErr e => (RErr e, s)
    | RPanic => (RPanic, s)
    end.

(** Run a primitive on the cursor. *)
Definition on_buf {A} (f : list byte -> res (A * list byte)) : M A :=
  fun s =>
    match f (buf s) with
    | ROk (a, rest) => (ROk a, mkSt (dec s) rest (out s))
    | RErr e => (RErr e, s)
    | RPanic => (RPanic, s)
    end.

Definition get_dec : M Decoder := fun s => (ROk (dec s), s).
Definition put_dec (d : Decoder) : M unit :=
  fun s => (ROk tt, mkSt d (buf s) (out s)).

Definition has_remaining : M bool :=
  fun s => (ROk (negb (match buf s with [] => true | _ => false end)), s).

(** [f(entry)]. *)
Definition emit (e : Entry) : M unit :=
  fun s => (ROk tt, mkSt (dec s) (buf s) (out s ++ [e])).

(** [self.max_size_update.take()]. *)
Definition take_max_size_update : M (option N) :=
  d <- get_dec ;;
  put_dec (mkDecoder None (table d)) ;;;
  ret (max_size_update d).

(** [self.table.insert(entry)]. *)
Definition table_insert (e : Entry) : M unit :=
  d <- get_dec ;;
  match insert (table d) e with
  | None => panic
  | Some t => put_dec (mkDecoder (max_size_update d) t)
  end.

Definition HUFF_FLAG : N := 128. (* 0b10000000 *)

Section Decode.

(** The collaborators the spec leaves outside the decoder: the Huffman
    oracle [huffman::decode], [Entry::new] (name validation) and
    [e.key().into_entry(value)]. Every result below holds for all of them. *)
Variable huffman_decode : list byte -> res (list byte).
Variable entry_new : list byte -> list byte -> res Entry.
Variable key_into_entry : Entry -> list byte -> res Entry.

Definition decode_string (buf : list byte) : res (list byte * list byte) :=
  rbind (peek_u8 buf) (fun b0 =>
  let huff := N.land (Byte.to_N b0) HUFF_FLAG =? HUFF_FLAG in
  rbind (decode_int buf 7) (fun '(len, buf) =>
  if N.of_nat (List.length buf) <? len then RErr StringUnderflow
  else if huff then
    let raw := firstn (N.to_nat len) buf in
    rbind (huffman_decode raw) (fun ret => ROk (ret, skipn (N.to_nat len) buf))
  else ROk (take buf len))).

Definition decode_indexed : M Entry :=
  index <- on_buf (fun b => decode_int b 7) ;;
  d <- get_dec ;;
  liftr (get (table d) index).

Definition decode_literal (index : bool) : M Entry :=
  let prefix := if index then 6 else 4 in
  table_idx <- on_buf (fun b => decode_int b prefix) ;;
  if table_idx =? 0 then
    name <- on_buf decode_string ;;
    value <- on_buf decode_string ;;
    liftr (entry_new name value)
  else
    d <- get_dec ;;
    e <- liftr (get (table d) table_idx) ;;
    value <- on_buf decode_string ;;
    liftr (key_into_entry e value).

Definition process_size_update (max : N) : M unit :=
  new_size <- on_buf (fun b => decode_int b 5) ;;
  if max <? new_size then throw InvalidMaxDynamicSize
  else
    d <- get_dec ;;
    match set_max_size (table d) new_size with
    | None => panic
    | Some t => put_dec (mkDecoder (max_size_update d) t)
    end.

(** One pass of the [while buf.has_remaining()] body of [decode]; it
    returns the new value of the local [can_resize]. *)
Definition decode_block (can_resize : bool) : M bool :=
  b <- on_buf (fun b => rbind (peek_u8 b) (fun x => ROk (x, b))) ;;
  r <- liftr (load b) ;;
  match r with
  | Indexed =>
      e <- decode_indexed ;; emit e ;;; ret false
  | LiteralWithIndexing =>
      entry <- decode_literal true ;;
      table_insert entry ;;;
      emit entry ;;; ret false
  | LiteralWithoutIndexing =>
      entry <- decode_literal false ;; emit entry ;;; ret false
  | LiteralNeverIndexed =>
      entry <- decode_literal false ;; emit entry ;;; ret false
  | SizeUpdate =>
      p <- take_max_size_update ;;
      match p with
      | Some max =>
          if can_resize then process_size_update max ;;; ret can_resize
          else throw InvalidMaxDynamicSize
      | None => throw InvalidMaxDynamicSize
      end
  end.

(** The loop of [decode]. [decode] gives it one unit of fuel per input
    byte plus one; every pass consumes at least one byte. *)
Fixpoint decode_loop (fuel : nat) (can_resize : bool) : M unit :=
  match fuel with
  | O => panic
  | S fuel =>
      rem <- has_remaining ;;
      if rem then
        cr <- decode_block can_resize ;;
        decode_loop fuel cr
      else ret tt
  end.

(** [Decoder::decode]: the outcome, the decoder afterwards and the entries
    passed to the sink, in order. *)
Definition decode (d : Decoder) (src : list byte) : res unit * Decoder * list Entry :=
  let '(r, s) := decode_loop (S (List.length src)) true (mkSt d src []) in
  (r, dec s, out s).

End Decode.

(** Sample collaborators, used to run the decoder on concrete blocks. *)
Definition huffman_reject (raw : list byte) : res (list byte) :=
  RErr InvalidHuffmanCode.

Definition entry_new_plain (name value : list byte) : res Entry :=
  ROk (Header name value).

Definition key_into_entry_plain (e : Entry) (value : list byte) : res Entry :=
  match e with
  | Authority _ => ROk (Authority value)
  | Method _ => ROk (Method value)
  | Scheme _ => ROk (Scheme value)
  | Path _ => ROk (Path value)
  | Status _ => RErr InvalidStatusCode
  | Header name _ => ROk (Header name value)
  end.

Definition run (d : Decoder) (src : list byte) :=
  decode huffman_reject entry_new_plain key_into_entry_plain d src.

(** ** Reachable decoder states

    The states a decoder reaches through [new], [queue_size_update] and
    successful [decode] calls, for given collaborators. *)
Inductive reachable
    (hd : list byte -> res (list byte))
    (en : list byte -> list byte -> res Entry)
    (ki : Entry -> list byte -> res Entry) : Decoder -> Prop :=
| reachable_new : forall size, reachable hd en ki (new size)
| reachable_queue : forall d size,
    reachable hd en ki d -> reachable hd en ki (queue_size_update d size)
| reachable_decode : forall d src d' out,
    reachable hd en ki d ->
    decode hd en ki d src = (ROk tt, d', out) ->
    reachable hd en ki d'.

(** Sum of the entry sizes of a list of entries. *)
Definition sum_len (l : list Entry) : N :=
  fold_right (fun e acc => entry_len e + acc) 0 l.

(** ** Statements of the spec, written from its words *)

(** Representation discrimination, spec section 4.5: ordered tests on the
    top bits of the first byte. *)
Definition classify_spec (B : byte) : res Representation :=
  let b := Byte.to_N B in
  if N.testbit b 7 then ROk Indexed
  else if N.shiftr b 6 =? 1 then ROk LiteralWithIndexing
  else if N.shiftr b 4 =? 0 then ROk LiteralWithoutIndexing
  else if N.shiftr b 4 =? 1 then ROk LiteralNeverIndexed
  else if N.shiftr b 5 =? 1 then ROk SizeUpdate
  else RErr InvalidRepresentation.

(** Prefix integers, spec section 4.1: [mask = (1 << N) - 1]. *)
Definition int_mask (n : N) : N := 2 ^ n - 1.

(** The continuation flag: the high bit of an octet. *)
Definition flag_set (c : byte) : bool := N.testbit (Byte.to_N c) 7.

(** The contribution of continuation octets number [i], [i+1], ...: the
    low 7 bits of the [i]-th one shifted by [7 * (i - 1)]. *)
Fixpoint continuation_sum (cs : list byte) (i : N) : N :=
  match cs with
  | [] => 0
  | c :: cs => (Byte.to_N c mod 128) * 2 ^ (7 * (i - 1)) + continuation_sum cs (i + 1)
  end.

(** RFC 7541 Appendix A, as enumerated in spec section 6: (name, value). *)
Definition rfc7541_static : list (string * string) :=
  [(":authority", ""); (":method", "GET"); (":method", "POST");
   (":path", "/"); (":path", "/index.html"); (":scheme", "http");
   (":scheme", "https"); (":status", "200"); (":status", "204");
   (":status", "206"); (":status", "304"); (":status", "400");
   (":status", "404"); (":status", "500");
   ("accept-charset", ""); ("accept-encoding", "gzip, deflate");
   ("accept-language", ""); ("accept-ranges", ""); ("accept", "");
   ("access-control-allow-origin", ""); ("age", ""); ("allow", "");
   ("authorization", ""); ("cache-control", ""); ("content-disposition", "");
   ("content-encoding", ""); ("content-language", ""); ("content-length", "");
   ("content-location", ""); ("content-range", ""); ("content-type", "");
   ("cookie", ""); ("date", ""); ("etag", ""); ("expect", ""); ("expires", "");
   ("from", ""); ("host", ""); ("if-match", ""); ("if-modified-since", "");
   ("if-none-match", ""); ("if-range", ""); ("if-unmodified-since", "");
   ("last-modified", ""); ("link", ""); ("location", ""); ("max-forwards", "");
   ("proxy-authenticate", ""); ("proxy-authorization", ""); ("range", "");
   ("referer", ""); ("refresh", ""); ("retry-after", ""); ("server", "");
   ("set-cookie", ""); ("strict-transport-security", "");
   ("transfer-encoding", ""); ("user-agent", ""); ("vary", ""); ("via", "");
   ("www-authenticate", "")]%string.

(** Three-digit decimal text of a status code. *)
Definition status_text (code : N) : string :=
  String (ascii_of_N (48 + code / 100))
    (String (ascii_of_N (48 + code / 10 mod 10))
       (String (ascii_of_N (48 + code mod 10)) EmptyString)).

(** The header field an entry stands for: its name and its value. *)
Definition entry_fields (e : Entry) : string * string :=
  match e with
  | Authority v => (":authority", string_of_list_byte v)
  | Method m => (":method", string_of_list_byte m)
  | Scheme v => (":scheme", string_of_list_byte v)
  | Path v => (":path", string_of_list_byte v)
  | Status c => (":status", status_text c)
  | Header n v => (string_of_list_byte n, string_of_list_byte v)
  end%string.

(** ** Encoders of RFC 7541, sections 5.1 and 5.2

    Written from the RFC, not from the source: they build the blocks on
    which the decoder's round trips are stated. [encode_int n hi v] is the
    integer [v] on an [n]-bit prefix below the high bits [hi];
    [encode_string] a raw (not Huffman-coded) string literal. *)

(** The byte of value [x], for [x <= 255]. *)
Definition byte_of (x : N) : byte :=
  match Byte.of_N x with Some b => b | None => x00 end.

(** The continuation octets of [i], least significant group first;
    [fuel] bounds their number. *)
Fixpoint encode_cont (fuel : nat) (i : N) : list byte :=
  match fuel with
  | O => []
  | S fuel =>
      if i <? 128 then [byte_of i]
      else byte_of (i mod 128 + 128) :: encode_cont fuel (i / 128)
  end.

Definition encode_int (n hi v : N) : list byte :=
  let mask := 2 ^ n - 1 in
  if v <? mask then [byte_of (hi * 2 ^ n + v)]
  else byte_of (hi * 2 ^ n + mask)
         :: encode_cont (S (N.to_nat (N.size (v - mask)))) (v - mask).

Definition encode_string (s : list byte) : list byte :=
  encode_int 7 0 (N.of_nat (List.length s)) ++ s.

(** ** Runs on the examples of RFC 7541 Appendix C (spec section 8) *)

Example rfc_c_2_1 :
  run (new 4096)
    (bs "@" ++ [x0a] ++ bs "custom-key" ++ [x0d] ++ bs "custom-header")
  = (ROk tt,
     mkDecoder None
       (mkTable [Header (bs "custom-key") (bs "custom-header")] 55 4096),
     [Header (bs "custom-key") (bs "custom-header")]).
Proof. reflexivity. Qed.

Example rfc_c_2_4 :
  run (new 4096) [x82] = (ROk tt, new 4096, [Method (bs "GET")]).
Proof. reflexivity. Qed.

Example rfc_c_3_1 :
  let '(r, d, out) :=
    run (new 4096) ([x82; x86; x84; x41; x0f] ++ bs "www.example.com") in
  r = ROk tt /\ size (table d) = 57 /\
  out = [Method (bs "GET"); Scheme (bs "http"); Path (bs "/");
         Authority (bs "www.example.com")].
Proof. vm_compute. auto. Qed.

(** * Representation discrimination *)

(** C5: for every byte [B], [Representation::load] classifies [B] exactly
    as the ordered tests of the spec do: high bit set gives [Indexed]; else
    top two bits [01] gives [LiteralWithIndexing]; else top four bits [0000]
    gives [LiteralWithoutIndexing]; else [0001] gives [LiteralNeverIndexed];
    else top three bits [001] gives [SizeUpdate]; otherwise
    [InvalidRepresentation]. *)
Theorem load_matches_spec_tests : forall B : byte, load B = classify_spec B.
Proof. intros B; destruct B; vm_compute; reflexivity. Qed.

Lemma load_never_invalid : forall B : byte, load B <> RErr InvalidRepresentation.
Proof. intros B; destruct B; vm_compute; discriminate. Qed.

(** * Errors a computation cannot return *)

Section NeverErr.

Variable E : DecoderError.

Definition never_err {A} (m : M A) : Prop := forall s s', m s <> (RErr E, s').

Lemma bind_never {A B} (m : M A) (k : A -> M B) :
  never_err m -> (forall a, never_err (k a)) -> never_err (bind m k).
Proof.
  intros Hm Hk s s'; unfold bind.
  destruct (m s) as [[a| e |] s1] eqn:Hs; try discriminate.
  - apply Hk.
  - intros [= -> ->]. exact (Hm s s' Hs).
Qed.

Lemma ret_never {A} (a : A) : never_err (ret a).
Proof. intros s s'; discriminate. Qed.

Lemma panic_never {A} : never_err (@panic A).
Proof. intros s s'; discriminate. Qed.

Lemma get_dec_never : never_err get_dec.
Proof. intros s s'; discriminate. Qed.

Lemma put_dec_never d : never_err (put_dec d).
Proof. intros s s'; discriminate. Qed.

Lemma emit_never e : never_err (emit e).
Proof. intros s s'; discriminate. Qed.

Lemma has_remaining_never : never_err has_remaining.
Proof. intros s s'; discriminate. Qed.

Lemma throw_never {A} e : e <> E -> never_err (@throw A e).
Proof. intros He s s' [= ->]; auto. Qed.

Lemma liftr_never {A} (r : res A) : r <> RErr E -> never_err (liftr r).
Proof. intros Hr s s'; destruct r; simpl; congruence. Qed.

Lemma on_buf_never {A} (f : list byte -> res (A * list byte)) :
  (forall b, f b <> RErr E) -> never_err (on_buf f).
Proof.
  intros Hf s s'; unfold on_buf.
  specialize (Hf (buf s)); destruct (f (buf s)) as [[a r]| e |]; congruence.
Qed.

Lemma rbind_never {A B} (m : res A) (k : A -> res B) :
  m <> RErr E -> (forall a, k a <> RErr E) -> rbind m k <> RErr E.
Proof. intros Hm Hk; destruct m; simpl; congruence. Qed.

End NeverErr.

Lemma peek_u8_not_err b e : peek_u8 b <> RErr e.
Proof. destruct b; discriminate. Qed.

Create HintDb never.
#[export] Hint Extern 1 (_ <> RErr _) => discriminate : never.
#[export] Hint Extern 1 (_ <> _) => discriminate : never.
#[export] Hint Resolve peek_u8_not_err : never.
#[export] Hint Resolve bind_never ret_never panic_never get_dec_never put_dec_never
  emit_never has_remaining_never throw_never liftr_never on_buf_never
  rbind_never : never.

(** Split the computation under a [bind], a [let] or a [match]. *)
Ltac never_step :=
  match goal with
  | |- never_err _ (bind _ _) => apply bind_never; [ | intro ]
  | |- never_err _ (match ?x with _ => _ end) => destruct x
  | |- never_err _ (if ?x then _ else _) => destruct x
  | |- never_err _ (let '(_, _) := ?x in _) => destruct x
  | |- _ <> _ => discriminate
  | _ => eauto with never
  end.

Lemma decode_int_loop_errors buf ret bytes shift e :
  decode_int_loop buf ret bytes shift = RErr e ->
  e = IntegerUnderflow \/ e = IntegerOverflow.
Proof.
  revert ret bytes shift; induction buf as [|b buf IH]; simpl; intros ret bytes shift H.
  - injection H; auto.
  - destruct (_ =? 0); [discriminate|].
    destruct (Nat.eqb _ _); [injection H; auto|].
    eapply IH; eauto.
Qed.

Lemma decode_int_errors buf n e :
  decode_int buf n = RErr e ->
  e = InvalidIntegerPrefix \/ e = IntegerUnderflow \/ e = IntegerOverflow.
Proof.
  unfold decode_int; intros H.
  destruct (_ || _); [injection H; auto|].
  destruct buf as [|b buf]; [injection H; auto|].
  destruct (_ <? _); [discriminate|].
  apply decode_int_loop_errors in H; tauto.
Qed.

Lemma get_errors t i e : get t i = RErr e -> e = InvalidTableIndex.
Proof.
  unfold get; intros H.
  destruct (i =? 0); [congruence|].
  destruct (i <=? 61); [destruct (get_static i); discriminate|].
  destruct (nth_error _ _); congruence.
Qed.

Section NoInvalidRepresentation.

Variable hd : list byte -> res (list byte).
Variable en : list byte -> list byte -> res Entry.
Variable ki : Entry -> list byte -> res Entry.
Hypothesis hd_ok : forall raw, hd raw <> RErr InvalidRepresentation.
Hypothesis en_ok : forall n v, en n v <> RErr InvalidRepresentation.
Hypothesis ki_ok : forall e v, ki e v <> RErr InvalidRepresentation.

Lemma decode_int_not_ir buf n : decode_int buf n <> RErr InvalidRepresentation.
Proof. intros H; apply decode_int_errors in H; intuition discriminate. Qed.

Lemma get_not_ir t i : get t i <> RErr InvalidRepresentation.
Proof. intros H; apply get_errors in H; discriminate. Qed.

Lemma decode_string_not_ir b : decode_string hd b <> RErr InvalidRepresentation.
Proof.
  unfold decode_string.
  apply rbind_never; [destruct b; discriminate|]; intros b0.
  apply rbind_never; [apply decode_int_not_ir|]; intros [len rest].
  destruct (_ <? _); [discriminate|].
  destruct (_ =? _); [|discriminate].
  apply rbind_never; [apply hd_ok|]; discriminate.
Qed.

#[local] Hint Resolve decode_int_not_ir get_not_ir decode_string_not_ir
  load_never_invalid hd_ok en_ok ki_ok : never.

Lemma decode_block_not_ir cr :
  never_err InvalidRepresentation (decode_block hd en ki cr).
Proof.
  unfold decode_block, decode_indexed, decode_literal, table_insert,
    take_max_size_update, process_size_update.
  repeat never_step.
Qed.

Lemma decode_loop_not_ir fuel cr :
  never_err InvalidRepresentation (decode_loop hd en ki fuel cr).
Proof.
  revert cr; induction fuel as [|fuel IH]; intros cr; simpl.
  - apply panic_never.
  - repeat never_step. apply decode_block_not_ir.
Qed.

End NoInvalidRepresentation.

(** C10: [Representation::load] is total over bytes (every byte value is
    one of the five representations), and, for collaborators that never
    report [InvalidRepresentation] themselves, [decode] never returns
    [InvalidRepresentation] on any decoder state and any input. *)
Theorem decode_never_invalid_representation :
  (forall B : byte, exists r, load B = ROk r) /\
  forall hd en ki,
    (forall raw, hd raw <> RErr InvalidRepresentation) ->
    (forall n v, en n v <> RErr InvalidRepresentation) ->
    (forall e v, ki e v <> RErr InvalidRepresentation) ->
    forall d src, fst (fst (decode hd en ki d src)) <> RErr InvalidRepresentation.
Proof.
  split.
  - intros B; destruct B; eexists; vm_compute; reflexivity.
  - intros hd en ki Hhd Hen Hki d src; unfold decode.
    destruct (decode_loop hd en ki _ true _) as [r s] eqn:Hrun; simpl.
    intros ->. exact (decode_loop_not_ir hd en ki Hhd Hen Hki _ _ _ _ Hrun).
Qed.

Lemma decode_never_invalid_representation_witness :
  (forall raw, huffman_reject raw <> RErr InvalidRepresentation) /\
  (forall n v, entry_new_plain n v <> RErr InvalidRepresentation) /\
  (forall e v, key_into_entry_plain e v <> RErr InvalidRepresentation) /\
  fst (fst (run (new 4096) [xff; x3f; x00; x10])) <> RErr InvalidRepresentation.
Proof.
  assert (H1 : forall raw, huffman_reject raw <> RErr InvalidRepresentation)
    by (intros raw; unfold huffman_reject; discriminate).
  assert (H2 : forall n v, entry_new_plain n v <> RErr InvalidRepresentation)
    by (intros n v; unfold entry_new_plain; discriminate).
  assert (H3 : forall e v, key_into_entry_plain e v <> RErr InvalidRepresentation)
    by (intros e v; destruct e; simpl; discriminate).
  split; [exact H1|]. split; [exact H2|]. split; [exact H3|].
  exact (proj2 decode_never_invalid_representation _ _ _ H1 H2 H3 _ _).
Defined.

(** * The dynamic table *)

Lemma entry_len_ge e : 32 <= entry_len e.
Proof. destruct e; unfold entry_len; lia. Qed.

Lemma sum_len_app l1 l2 : sum_len (l1 ++ l2) = sum_len l1 + sum_len l2.
Proof. induction l1 as [|e l1 IH]; simpl; lia. Qed.

Lemma sum_len_rev l : sum_len (rev l) = sum_len l.
Proof.
  induction l as [|e l IH]; simpl; [reflexivity|].
  rewrite sum_len_app; simpl; lia.
Qed.

Lemma sum_len_zero l : sum_len l = 0 -> l = [].
Proof. destruct l as [|e l]; simpl; [auto|]; pose proof (entry_len_ge e); lia. Qed.

(** A successful eviction loop of [reserve] leaves room for [need]. *)
Lemma reserve_loop_ok back size need max back' size' :
  size = sum_len back ->
  reserve_loop back size need max = Some (back', size') ->
  size' = sum_len back' /\ size' + need <= max.
Proof.
  revert size; induction back as [|e back IH]; intros size Hs; simpl.
  - destruct (max <? size + need) eqn:Hlt; [discriminate|].
    intros [= <- <-]; apply N.ltb_ge in Hlt; simpl in *; lia.
  - destruct (max <? size + need) eqn:Hlt.
    + apply IH; simpl in Hs; lia.
    + intros [= <- <-]; apply N.ltb_ge in Hlt; split; [simpl in *|]; lia.
Qed.

(** An entry larger than the capacity empties the deque and then hits the
    [expect] on an empty [pop_back]. *)
Lemma reserve_loop_too_big back size need max :
  size = sum_len back -> max < need ->
  reserve_loop back size need max = None.
Proof.
  revert size; induction back as [|e back IH]; intros size Hs Hbig; simpl.
  - replace (max <? size + need) with true by (symmetry; apply N.ltb_lt; lia).
    reflexivity.
  - replace (max <? size + need) with true by (symmetry; apply N.ltb_lt; lia).
    apply IH; simpl in Hs; lia.
Qed.

(** The eviction loop of [consolidate] drops the oldest entries, one at a
    time, and stops as soon as the size fits. *)
Lemma consolidate_loop_spec back size m :
  size = sum_len back ->
  exists dropped back',
    back = dropped ++ back' /\
    consolidate_loop back size m = Some (back', sum_len back') /\
    sum_len back' <= m /\
    (forall dropped0 e, dropped = dropped0 ++ [e] -> m < sum_len back' + entry_len e).
Proof.
  revert size; induction back as [|e back IH]; intros size Hs; simpl.
  - exists [], []; simpl in *; subst size.
    replace (m <? 0) with false by (symmetry; apply N.ltb_ge; lia).
    split; [reflexivity|]. split; [reflexivity|]. split; [simpl; lia|].
    intros dropped0 e H; destruct dropped0; discriminate.
  - destruct (m <? size) eqn:Hlt.
    + destruct (IH (size - entry_len e)) as (dropped & back' & Hb & Hrun & Hle & Hlast);
        [simpl in Hs; lia|].
      exists (e :: dropped), back'.
      split; [simpl; congruence|]. split; [exact Hrun|]. split; [exact Hle|].
      intros dropped0 e' Hd.
      destruct dropped0 as [|x dropped0]; simpl in Hd; injection Hd as -> Hd.
      * destruct dropped as [|y dropped]; [|destruct dropped; discriminate].
        simpl in Hb; subst back'. apply N.ltb_lt in Hlt; simpl in Hs; lia.
      * eapply Hlast; eauto.
    + exists [], (e :: back).
      apply N.ltb_ge in Hlt; subst size.
      split; [reflexivity|]. split; [reflexivity|]. split; [exact Hlt|].
      intros dropped0 e' H; destruct dropped0; discriminate.
Qed.

(** [Table::set_max_size] on a consistent table. *)
Lemma set_max_size_spec t m :
  size t = sum_len (entries t) ->
  exists t', set_max_size t m = Some t' /\ max_size t' = m /\
    exists kept evicted,
      entries t = kept ++ evicted /\ entries t' = kept /\
      size t' = sum_len kept /\ size t' <= m /\
      (forall e evicted', evicted = e :: evicted' -> m < size t' + entry_len e).
Proof.
  intros Hs.
  destruct (consolidate_loop_spec (rev (entries t)) (size t) m)
    as (dropped & back' & Hb & Hrun & Hle & Hlast);
    [rewrite sum_len_rev; exact Hs|].
  unfold set_max_size, consolidate; simpl. rewrite Hrun.
  eexists; split; [reflexivity|]; simpl; split; [reflexivity|].
  exists (rev back'), (rev dropped).
  split; [rewrite <- rev_app_distr, <- Hb, rev_involutive; reflexivity|].
  split; [reflexivity|]. rewrite sum_len_rev.
  split; [reflexivity|]. split; [exact Hle|].
  intros e evicted' He. apply (Hlast (rev evicted')).
  rewrite <- (rev_involutive dropped), He; reflexivity.
Qed.

(** [Table::insert] on a consistent table, when it does not panic. *)
Lemma insert_ok t e t' :
  size t = sum_len (entries t) ->
  insert t e = Some t' ->
  size t' = sum_len (entries t') /\ size t' <= max_size t' /\
  max_size t' = max_size t.
Proof.
  unfold insert, reserve; intros Hs.
  destruct (reserve_loop _ _ _ _) as [[back size']|] eqn:Hrun; [|discriminate].
  intros [= <-]; simpl.
  apply reserve_loop_ok in Hrun; [|rewrite sum_len_rev; exact Hs].
  rewrite sum_len_rev; lia.
Qed.

(** C9: [set_max_size(m)] assigns [max_size := m] and evicts entries from
    the back (oldest first) while [size > m]: the entries kept are the
    newest ones, they fit in [m], and the last entry evicted did not; in
    particular [set_max_size(0)] leaves no entry. Stated for the table
    states the decoder maintains, where [size] is the sum of the entry
    sizes (see C8); [consolidate] cannot panic there. *)
Theorem set_max_size_evicts_oldest t m :
  size t = sum_len (entries t) ->
  exists t', set_max_size t m = Some t' /\ max_size t' = m /\
    (exists kept evicted,
       entries t = kept ++ evicted /\ entries t' = kept /\
       size t' = sum_len kept /\ size t' <= m /\
       (forall e evicted', evicted = e :: evicted' -> m < size t' + entry_len e)) /\
    (m = 0 -> entries t' = []).
Proof.
  intros Hs.
  destruct (set_max_size_spec t m Hs)
    as (t' & Hrun & Hmax & kept & evicted & Hsplit & Hkept & Hsize & Hle & Hlast).
  exists t'; split; [exact Hrun|]; split; [exact Hmax|]; split.
  - exists kept, evicted; auto.
  - intros ->. rewrite Hkept; apply sum_len_zero; lia.
Qed.

Lemma set_max_size_evicts_oldest_witness :
  let t := mkTable [Header (bs "b") (bs "2"); Header (bs "a") (bs "1")] 68 4096 in
  size t = sum_len (entries t) /\
  exists t', set_max_size t 40 = Some t' /\ max_size t' = 40 /\
    (exists kept evicted,
       entries t = kept ++ evicted /\ entries t' = kept /\
       size t' = sum_len kept /\ size t' <= 40 /\
       (forall e evicted', evicted = e :: evicted' -> 40 < size t' + entry_len e)) /\
    (40 = 0 -> entries t' = []).
Proof.
  intros t. split; [vm_compute; reflexivity|].
  apply (set_max_size_evicts_oldest t 40). vm_compute; reflexivity.
Defined.

(** C2 (as the code behaves): inserting an entry larger than [max_size]
    into a consistent table does not clear the table: [reserve] evicts
    every entry and then panics on the [expect] of an empty [pop_back]
    (a debug build already fails its [debug_assert!]). On the wire: a
    decoder created with [new(0)] that receives a literal with
    incremental indexing panics instead of delivering the entry. *)
Theorem insert_oversized_panics :
  (forall t e, size t = sum_len (entries t) -> max_size t < entry_len e ->
     insert t e = None) /\
  (forall hd en ki e, en [x61] [x62] = ROk e ->
     fst (fst (decode hd en ki (new 0) [x40; x01; x61; x01; x62])) = RPanic).
Proof.
  split.
  - intros t e Hs Hbig; unfold insert, reserve.
    rewrite reserve_loop_too_big; [reflexivity| |exact Hbig].
    rewrite sum_len_rev; exact Hs.
  - intros hd en ki e He.
    assert (Hins : insert (mkTable [] 0 0) e = None).
    { unfold insert, reserve; rewrite reserve_loop_too_big; [reflexivity|reflexivity|].
      simpl; pose proof (entry_len_ge e); lia. }
    cbv beta iota zeta delta -[insert]. rewrite He.
    cbv beta iota zeta. rewrite Hins.
    reflexivity.
Qed.

Lemma insert_oversized_panics_witness :
  (size (mkTable [Header (bs "a") (bs "1")] 34 40) =
     sum_len (entries (mkTable [Header (bs "a") (bs "1")] 34 40)) /\
   max_size (mkTable [Header (bs "a") (bs "1")] 34 40) < entry_len (Header (bs "ab") (bs "0123456789")) /\
   insert (mkTable [Header (bs "a") (bs "1")] 34 40) (Header (bs "ab") (bs "0123456789")) = None) /\
  (entry_new_plain [x61] [x62] = ROk (Header [x61] [x62]) /\
   fst (fst (run (new 0) [x40; x01; x61; x01; x62])) = RPanic).
Proof.
  split.
  - split; [vm_compute; reflexivity|]. split; [vm_compute; reflexivity|].
    apply (proj1 insert_oversized_panics); vm_compute; reflexivity.
  - split; [reflexivity|].
    exact (proj2 insert_oversized_panics _ _ _ _ eq_refl).
Defined.

(** * Size updates *)

(** C1 (as the code behaves): with a ceiling queued by
    [queue_size_update(100)], a block made of two size updates to 0 (both
    within the ceiling) is rejected with [InvalidMaxDynamicSize] at the
    second one, since the first one [take()]s the ceiling; the first update
    alone is accepted. *)
Theorem two_size_updates_rejected :
  forall hd en ki,
    fst (fst (decode hd en ki (queue_size_update (new 4096) 100) [x20])) = ROk tt /\
    fst (fst (decode hd en ki (queue_size_update (new 4096) 100) [x20; x20]))
      = RErr InvalidMaxDynamicSize.
Proof. intros hd en ki; split; reflexivity. Qed.

(** * Truncated input *)

(** C3 (as the code behaves): on any decoder state, the one-byte block
    [0x00] (a literal without indexing with a literal name, cut after its
    first byte) panics in [decode_string]: [peek_u8] indexes the empty
    remaining slice before [decode_int] could report [IntegerUnderflow]. A
    block cut inside an integer, by contrast, gives [IntegerUnderflow]. *)
Theorem truncated_string_panics :
  forall hd en ki d,
    fst (fst (decode hd en ki d [x00])) = RPanic /\
    fst (fst (decode hd en ki d [xff])) = RErr IntegerUnderflow.
Proof. intros hd en ki d; split; reflexivity. Qed.

(** * The table invariant *)

Definition table_inv (d : Decoder) : Prop :=
  size (table d) = sum_len (entries (table d)) /\
  size (table d) <= max_size (table d).

(** A computation that, unless it panics, leaves a decoder satisfying
    [P] when it started from one (also when it stops on an error). *)
Definition keeps {A} (P : Decoder -> Prop) (m : M A) : Prop :=
  forall s r s', m s = (r, s') -> r <> RPanic -> P (dec s) -> P (dec s').

Section Keeps.

Variable P : Decoder -> Prop.

Lemma bind_keeps {A B} (m : M A) (k : A -> M B) :
  keeps P m -> (forall a, keeps P (k a)) -> keeps P (bind m k).
Proof.
  intros Hm Hk s r s' Hrun Hr Hs; unfold bind in Hrun.
  destruct (m s) as [[a| e |] s1] eqn:Hs1.
  - apply (Hk a s1 r s' Hrun Hr). apply (Hm s (ROk a) s1 Hs1); [discriminate|exact Hs].
  - injection Hrun as <- <-. apply (Hm s (RErr e) s1 Hs1); [discriminate|exact Hs].
  - injection Hrun as <- <-. contradiction.
Qed.

(** Computations that do not touch the decoder. *)
Lemma keeps_same_dec {A} (m : M A) :
  (forall s r s', m s = (r, s') -> dec s' = dec s) -> keeps P m.
Proof. intros H s r s' Hrun _ Hs; rewrite (H _ _ _ Hrun); exact Hs. Qed.

Lemma ret_keeps {A} (a : A) : keeps P (ret a).
Proof. apply keeps_same_dec; intros s r s' [= _ <-]; reflexivity. Qed.

Lemma throw_keeps {A} e : keeps P (@throw A e).
Proof. apply keeps_same_dec; intros s r s' [= _ <-]; reflexivity. Qed.

Lemma panic_keeps {A} : keeps P (@panic A).
Proof. apply keeps_same_dec; intros s r s' [= _ <-]; reflexivity. Qed.

Lemma liftr_keeps {A} (r : res A) : keeps P (liftr r).
Proof. apply keeps_same_dec; intros s r' s'; destruct r; intros [= _ <-]; reflexivity. Qed.

Lemma on_buf_keeps {A} (f : list byte -> res (A * list byte)) : keeps P (on_buf f).
Proof.
  apply keeps_same_dec; intros s r s'; unfold on_buf.
  destruct (f (buf s)) as [[a rest]| e |]; intros [= _ <-]; reflexivity.
Qed.

Lemma get_dec_keeps : keeps P get_dec.
Proof. apply keeps_same_dec; intros s r s' [= _ <-]; reflexivity. Qed.

Lemma emit_keeps e : keeps P (emit e).
Proof. apply keeps_same_dec; intros s r s' [= _ <-]; reflexivity. Qed.

Lemma has_remaining_keeps : keeps P has_remaining.
Proof. apply keeps_same_dec; intros s r s' [= _ <-]; reflexivity. Qed.

End Keeps.

Create HintDb keeps.
#[export] Hint Resolve bind_keeps ret_keeps throw_keeps panic_keeps liftr_keeps
  on_buf_keeps get_dec_keeps emit_keeps has_remaining_keeps : keeps.

Ltac keeps_step :=
  match goal with
  | |- keeps _ (bind _ _) => apply bind_keeps; [ | intro ]
  | |- keeps _ (match ?x with _ => _ end) => destruct x
  | |- keeps _ (if ?x then _ else _) => destruct x
  | _ => eauto with keeps
  end.

Lemma take_max_size_update_keeps : keeps table_inv take_max_size_update.
Proof.
  intros s r s'; unfold take_max_size_update, bind, get_dec, put_dec, ret; simpl.
  intros [= _ <-] _; unfold table_inv; simpl; auto.
Qed.

Lemma table_insert_keeps e : keeps table_inv (table_insert e).
Proof.
  intros s r s'; unfold table_insert, bind, get_dec, put_dec, panic; simpl.
  destruct (insert (table (dec s)) e) as [t|] eqn:Hins.
  - intros [= _ <-] _ [Hs _]; unfold table_inv; simpl.
    destruct (insert_ok _ _ _ Hs Hins) as (H1 & H2 & _); auto.
  - intros [= <- _]; congruence.
Qed.

Lemma process_size_update_keeps max : keeps table_inv (process_size_update max).
Proof.
  unfold process_size_update. apply bind_keeps; [apply on_buf_keeps|]. intros n.
  destruct (max <? n); [apply throw_keeps|].
  intros s r s'; unfold bind, get_dec, put_dec, panic; simpl.
  destruct (set_max_size (table (dec s)) n) as [t|] eqn:Hset.
  - intros [= _ <-] _ [Hs _]; unfold table_inv; simpl.
    destruct (set_max_size_spec _ n Hs)
      as (t' & Hrun & Hmax & kept & evicted & _ & Hkept & Hsize & Hle & _).
    rewrite Hset in Hrun; injection Hrun as <-.
    rewrite Hkept, Hmax; split; [exact Hsize|exact Hle].
  - intros [= <- _]; congruence.
Qed.

#[export] Hint Resolve take_max_size_update_keeps table_insert_keeps
  process_size_update_keeps : keeps.

Lemma decode_loop_keeps hd en ki fuel cr :
  keeps table_inv (decode_loop hd en ki fuel cr).
Proof.
  revert cr; induction fuel as [|fuel IH]; intros cr; simpl; [apply panic_keeps|].
  repeat keeps_step.
  unfold decode_block, decode_indexed, decode_literal.
  repeat keeps_step.
Qed.

Lemma decode_keeps_inv hd en ki d src r d' out :
  decode hd en ki d src = (r, d', out) -> r <> RPanic ->
  table_inv d -> table_inv d'.
Proof.
  unfold decode.
  destruct (decode_loop hd en ki _ true _) as [r0 s] eqn:Hrun.
  intros [= <- <- _] Hr Hinv.
  exact (decode_loop_keeps hd en ki _ _ _ _ _ Hrun Hr Hinv).
Qed.

(** C8: in every decoder state reachable through [new],
    [queue_size_update] and successful [decode] calls, the dynamic table
    has [size] equal to the sum of its entry sizes and [size <= max_size];
    in particular a table holding entries never reports [size = 0]. *)
Theorem reachable_table_invariant hd en ki d :
  reachable hd en ki d ->
  size (table d) = sum_len (entries (table d)) /\
  size (table d) <= max_size (table d) /\
  (entries (table d) <> [] -> size (table d) <> 0).
Proof.
  intros Hreach.
  assert (Hinv : table_inv d).
  { induction Hreach as [size0|d0 size0 _ IH|d0 src d' out _ IH Hdec].
    - unfold table_inv; simpl; lia.
    - exact IH.
    - eapply decode_keeps_inv; [exact Hdec|discriminate|exact IH]. }
  destruct Hinv as [Hsum Hle].
  split; [exact Hsum|]. split; [exact Hle|].
  intros Hne Hz. apply Hne, sum_len_zero. congruence.
Qed.

Lemma reachable_table_invariant_witness :
  let d0 := queue_size_update (new 4096) 100 in
  let src := [x3f; x21] ++ [x40; x01; x61; x01; x62] in
  reachable huffman_reject entry_new_plain key_into_entry_plain
    (snd (fst (run d0 src))) /\
  size (table (snd (fst (run d0 src)))) =
    sum_len (entries (table (snd (fst (run d0 src))))) /\
  size (table (snd (fst (run d0 src)))) <= max_size (table (snd (fst (run d0 src)))) /\
  (entries (table (snd (fst (run d0 src)))) <> [] ->
   size (table (snd (fst (run d0 src)))) <> 0).
Proof.
  intros d0 src.
  assert (Hr : reachable huffman_reject entry_new_plain key_into_entry_plain
                 (snd (fst (run d0 src)))).
  { apply (reachable_decode _ _ _ d0 src _ (snd (run d0 src))).
    - apply reachable_queue, reachable_new.
    - vm_compute; reflexivity. }
  split; [exact Hr|].
  exact (reachable_table_invariant _ _ _ _ Hr).
Defined.

(** * Decoding a prefix does not look past it *)

(** Extra bytes after the cursor. *)
Definition app_buf (s : St) (suf : list byte) : St :=
  mkSt (dec s) (buf s ++ suf) (out s).

(** A primitive that, when it succeeds, gives the same result with more
    bytes behind its input. *)
Definition prefix_stable {A} (f : list byte -> res (A * list byte)) : Prop :=
  forall b a r, f b = ROk (a, r) -> forall suf, f (b ++ suf) = ROk (a, r ++ suf).

Definition ext {A} (m : M A) : Prop :=
  forall s a s', m s = (ROk a, s') ->
  forall suf, m (app_buf s suf) = (ROk a, app_buf s' suf).

Lemma bind_ext {A B} (m : M A) (k : A -> M B) :
  ext m -> (forall a, ext (k a)) -> ext (bind m k).
Proof.
  intros Hm Hk s b s' Hrun suf; unfold bind in *.
  destruct (m s) as [[a| e |] s1] eqn:Hs1; try discriminate.
  rewrite (Hm _ _ _ Hs1 suf). exact (Hk a _ _ _ Hrun suf).
Qed.

Lemma ret_ext {A} (a : A) : ext (ret a).
Proof. intros s a' s' [= <- <-] suf; reflexivity. Qed.

Lemma throw_ext {A} e : ext (@throw A e).
Proof. intros s a s'; discriminate. Qed.

Lemma panic_ext {A} : ext (@panic A).
Proof. intros s a s'; discriminate. Qed.

Lemma liftr_ext {A} (r : res A) : ext (liftr r).
Proof. intros s a s'; destruct r; simpl; intros [= <- <-]; reflexivity. Qed.

Lemma get_dec_ext : ext get_dec.
Proof. intros s a s' [= <- <-] suf; reflexivity. Qed.

Lemma put_dec_ext d : ext (put_dec d).
Proof. intros s a s' [= <- <-] suf; reflexivity. Qed.

Lemma emit_ext e : ext (emit e).
Proof. intros s a s' [= <- <-] suf; reflexivity. Qed.

Lemma on_buf_ext {A} (f : list byte -> res (A * list byte)) :
  prefix_stable f -> ext (on_buf f).
Proof.
  intros Hf s a s'; unfold on_buf, app_buf; simpl.
  destruct (f (buf s)) as [[x r]| e |] eqn:Hb; try discriminate.
  intros [= <- <-] suf; rewrite (Hf _ _ _ Hb suf); reflexivity.
Qed.

Lemma decode_int_loop_app b ret bytes shift v r :
  decode_int_loop b ret bytes shift = ROk (v, r) ->
  forall suf, decode_int_loop (b ++ suf) ret bytes shift = ROk (v, r ++ suf).
Proof.
  revert ret bytes shift; induction b as [|c b IH]; intros ret bytes shift;
    simpl; [discriminate|].
  destruct (_ =? 0); [intros [= <- <-]; reflexivity|].
  destruct (Nat.eqb _ _); [discriminate|]. apply IH.
Qed.

Lemma decode_int_stable n : prefix_stable (fun b => decode_int b n).
Proof.
  intros b v r; unfold decode_int.
  destruct (_ || _); [discriminate|].
  destruct b as [|c b]; [discriminate|]. simpl.
  destruct (_ <? _); [intros [= <- <-]; reflexivity|].
  apply decode_int_loop_app.
Qed.

Lemma peek_stable : prefix_stable (fun b => rbind (peek_u8 b) (fun x => ROk (x, b))).
Proof. intros [|c b] a r; simpl; [discriminate|]; intros [= <- <-]; reflexivity. Qed.

Lemma decode_string_stable hd : prefix_stable (decode_string hd).
Proof.
  intros b v r; unfold decode_string.
  destruct b as [|c b]; [discriminate|]. simpl rbind at 1.
  destruct (decode_int (c :: b) 7) as [[len rest]| |] eqn:Hi; try discriminate.
  intros Hrun suf.
  pose proof (decode_int_stable 7 _ _ _ Hi suf) as Hi'. simpl in Hi' |- *.
  rewrite Hi'. simpl in Hrun |- *.
  destruct (N.of_nat (List.length rest) <? len) eqn:Hlt; [discriminate|].
  apply N.ltb_ge in Hlt.
  replace (N.of_nat (List.length (rest ++ suf)) <? len) with false
    by (symmetry; apply N.ltb_ge; rewrite length_app; lia).
  assert (Hn : (N.to_nat len - List.length rest = 0)%nat) by lia.
  rewrite firstn_app, skipn_app, Hn; simpl; rewrite app_nil_r.
  destruct (_ =? _).
  - destruct (hd _); simpl in *; try discriminate.
    injection Hrun as <- <-; reflexivity.
  - unfold take in *; injection Hrun as <- <-.
    rewrite firstn_app, skipn_app, Hn; simpl; rewrite app_nil_r; reflexivity.
Qed.

Create HintDb ext.
#[export] Hint Resolve bind_ext ret_ext throw_ext panic_ext liftr_ext get_dec_ext
  put_dec_ext emit_ext on_buf_ext decode_int_stable peek_stable
  decode_string_stable : ext.

Ltac ext_step :=
  match goal with
  | |- ext (bind _ _) => apply bind_ext; [ | intro ]
  | |- ext (match ?x with _ => _ end) => destruct x
  | |- ext (if ?x then _ else _) => destruct x
  | _ => eauto with ext
  end.

Lemma decode_block_ext hd en ki cr : ext (decode_block hd en ki cr).
Proof.
  unfold decode_block, decode_indexed, decode_literal, table_insert,
    take_max_size_update, process_size_update.
  repeat ext_step.
Qed.

(** * [can_resize] *)

(** Computations that emit nothing. *)
Definition out_same {A} (m : M A) : Prop :=
  forall s a s', m s = (ROk a, s') -> out s' = out s.

(** What a pass of the loop body returns as [can_resize]. *)
Definition block_post {A} (cr : A) (fls : A) (m : M A) : Prop :=
  forall s a s', m s = (ROk a, s') -> a = fls \/ (a = cr /\ out s' = out s).

Lemma bind_out_same {A B} (m : M A) (k : A -> M B) :
  out_same m -> (forall a, out_same (k a)) -> out_same (bind m k).
Proof.
  intros Hm Hk s b s' Hrun; unfold bind in Hrun.
  destruct (m s) as [[a| e |] s1] eqn:Hs1; try discriminate.
  rewrite (Hk _ _ _ _ Hrun); exact (Hm _ _ _ Hs1).
Qed.

Lemma bind_block_post {A B} (cr fls : B) (m : M A) (k : A -> M B) :
  out_same m -> (forall a, block_post cr fls (k a)) -> block_post cr fls (bind m k).
Proof.
  intros Hm Hk s b s' Hrun; unfold bind in Hrun.
  destruct (m s) as [[a| e |] s1] eqn:Hs1; try discriminate.
  destruct (Hk _ _ _ _ Hrun) as [H|[H1 H2]]; [auto|].
  right; split; [exact H1|]. rewrite H2; exact (Hm _ _ _ Hs1).
Qed.

(** Computations whose result, when they succeed, is [c]. *)
Definition returns {A} (c : A) (m : M A) : Prop :=
  forall s a s', m s = (ROk a, s') -> a = c.

Lemma bind_returns {A B} (c : B) (m : M A) (k : A -> M B) :
  (forall a, returns c (k a)) -> returns c (bind m k).
Proof.
  intros Hk s b s' Hrun; unfold bind in Hrun.
  destruct (m s) as [[a| e |] s1] eqn:Hs1; try discriminate.
  exact (Hk _ _ _ _ Hrun).
Qed.

Lemma ret_returns {A} (c : A) : returns c (ret c).
Proof. intros s a s' [= <- _]; reflexivity. Qed.

Lemma returns_block_post {A} (cr fls : A) m : returns fls m -> block_post cr fls m.
Proof. intros H s a s' Hrun; left; exact (H _ _ _ Hrun). Qed.

Lemma ret_block_post {A} (cr fls : A) : block_post cr fls (ret cr).
Proof. intros s a s' [= <- <-]; right; auto. Qed.

Lemma throw_block_post {A} (cr fls : A) e : block_post cr fls (throw e).
Proof. intros s a s'; discriminate. Qed.

Lemma ret_out_same {A} (a : A) : out_same (ret a).
Proof. intros s a' s' [= _ <-]; reflexivity. Qed.

Lemma throw_out_same {A} e : out_same (@throw A e).
Proof. intros s a s'; discriminate. Qed.

Lemma panic_out_same {A} : out_same (@panic A).
Proof. intros s a s'; discriminate. Qed.

Lemma liftr_out_same {A} (r : res A) : out_same (liftr r).
Proof. intros s a s'; destruct r; simpl; intros [= _ <-]; reflexivity. Qed.

Lemma get_dec_out_same : out_same get_dec.
Proof. intros s a s' [= _ <-]; reflexivity. Qed.

Lemma put_dec_out_same d : out_same (put_dec d).
Proof. intros s a s' [= _ <-]; reflexivity. Qed.

Lemma on_buf_out_same {A} (f : list byte -> res (A * list byte)) : out_same (on_buf f).
Proof.
  intros s a s'; unfold on_buf.
  destruct (f (buf s)) as [[x r]| e |]; intros [= _ <-]; reflexivity.
Qed.

Create HintDb outs.
#[export] Hint Resolve bind_out_same ret_out_same throw_out_same panic_out_same
  liftr_out_same get_dec_out_same put_dec_out_same on_buf_out_same : outs.

Ltac outs_step :=
  match goal with
  | |- out_same (bind _ _) => apply bind_out_same; [ | intro ]
  | |- out_same (match ?x with _ => _ end) => destruct x
  | |- out_same (if ?x then _ else _) => destruct x
  | _ => eauto with outs
  end.

(** A pass of the loop body either returns [can_resize = false] or emits
    nothing and keeps [can_resize]. *)
Lemma decode_block_post hd en ki cr : block_post cr false (decode_block hd en ki cr).
Proof.
  unfold decode_block.
  apply bind_block_post; [apply on_buf_out_same|]; intros b.
  apply bind_block_post; [apply liftr_out_same|]; intros r.
  destruct r.
  1-4: apply returns_block_post;
       repeat (apply bind_returns; intro); apply ret_returns.
  apply bind_block_post;
    [unfold take_max_size_update; repeat outs_step|]; intros p.
  destruct p as [max|]; [|apply throw_block_post].
  destruct cr; [|apply throw_block_post].
  apply bind_block_post; [|intros; apply ret_block_post].
  unfold process_size_update; repeat outs_step.
Qed.

(** With [can_resize] false, a size update fails at once. *)
Lemma decode_block_late_size_update hd en ki s b suf :
  buf s = b :: suf -> load b = ROk SizeUpdate ->
  fst (decode_block hd en ki false s) = RErr InvalidMaxDynamicSize.
Proof.
  intros Hb Hl.
  unfold decode_block, bind at 1, on_buf; rewrite Hb; simpl.
  unfold bind at 1; simpl; rewrite Hl; simpl.
  unfold take_max_size_update, bind, get_dec, put_dec, ret; simpl.
  destruct (max_size_update (dec s)); reflexivity.
Qed.

(** After a successful prefix whose passes cleared [can_resize] (or that
    started with it cleared), a size update that follows fails. *)
Lemma decode_loop_late_size_update hd en ki fuel cr s s' :
  decode_loop hd en ki fuel cr s = (ROk tt, s') ->
  (out s' <> out s \/ cr = false) ->
  forall b suf k, load b = ROk SizeUpdate ->
  fst (decode_loop hd en ki (fuel + k) cr (app_buf s (b :: suf)))
    = RErr InvalidMaxDynamicSize.
Proof.
  revert cr s; induction fuel as [|fuel IH]; intros cr s Hrun Hcond b suf k Hl;
    simpl in Hrun; [discriminate|].
  unfold bind at 1, has_remaining in Hrun; simpl in Hrun.
  simpl. unfold bind at 1, has_remaining, app_buf; simpl.
  destruct (buf s) as [|c rest] eqn:Hbuf; simpl in Hrun |- *.
  - (* the prefix is exhausted: [can_resize] is already false *)
    injection Hrun as <-.
    destruct Hcond as [Hne| ->]; [contradiction|].
    unfold bind at 1.
    pose proof (decode_block_late_size_update hd en ki
                  (mkSt (dec s) (b :: suf) (out s)) b suf eq_refl Hl) as Hlate.
    destruct (decode_block hd en ki false _) as [r1 s1]; simpl in Hlate; subst r1.
    reflexivity.
  - unfold bind at 1 in Hrun.
    destruct (decode_block hd en ki cr s) as [[cr'| e |] s1] eqn:Hblk;
      try discriminate.
    pose proof (decode_block_ext hd en ki cr _ _ _ Hblk (b :: suf)) as Hext.
    unfold app_buf in Hext; rewrite Hbuf in Hext.
    unfold bind at 1. change ((c :: rest) ++ b :: suf) with (c :: (rest ++ b :: suf)) in Hext. rewrite Hext.
    apply (IH cr' s1 Hrun); [|exact Hl].
    destruct (decode_block_post hd en ki cr _ _ _ Hblk) as [-> | [-> Hout]]; [auto|].
    rewrite Hout; exact Hcond.
Qed.

(** C7: once a block has decoded a representation other than a size
    update (each of them hands one entry to the sink), a size update that
    follows in the same block makes [decode] return
    [InvalidMaxDynamicSize], whatever the queued ceiling and the value it
    carries: size updates are accepted only while the block has seen
    nothing but size updates. *)
Theorem size_update_after_entry_rejected hd en ki d pre d' out b suf :
  decode hd en ki d pre = (ROk tt, d', out) ->
  out <> [] ->
  load b = ROk SizeUpdate ->
  fst (fst (decode hd en ki d (pre ++ b :: suf))) = RErr InvalidMaxDynamicSize.
Proof.
  unfold decode.
  destruct (decode_loop hd en ki (S (List.length pre)) true (mkSt d pre []))
    as [r s] eqn:Hrun.
  intros [= -> <- <-] Hne Hl.
  rewrite length_app. change (List.length (b :: suf)) with (S (List.length suf)).
  replace (S (List.length pre + S (List.length suf)))
    with (S (List.length pre) + S (List.length suf))%nat by lia.
  pose proof (decode_loop_late_size_update hd en ki _ true _ _ Hrun
                (or_introl Hne) b suf (S (List.length suf)) Hl) as H.
  unfold app_buf in H; cbn [dec buf out] in H.
  revert H.
  destruct (decode_loop hd en ki (S (List.length pre) + S (List.length suf))%nat
              true (mkSt d (pre ++ b :: suf) [])) as [r' s'].
  exact (fun H => H).
Qed.

Lemma size_update_after_entry_rejected_witness :
  let d := queue_size_update (new 4096) 4096 in
  run d [x82] = (ROk tt, d, [Method (bs "GET")]) /\
  [Method (bs "GET")] <> [] /\
  load x20 = ROk SizeUpdate /\
  fst (fst (run d ([x82] ++ [x20]))) = RErr InvalidMaxDynamicSize.
Proof.
  intros d.
  assert (H1 : run d [x82] = (ROk tt, d, [Method (bs "GET")])) by reflexivity.
  assert (H2 : [Method (bs "GET")] <> []) by discriminate.
  assert (H3 : load x20 = ROk SizeUpdate) by reflexivity.
  split; [exact H1|]. split; [exact H2|]. split; [exact H3|].
  exact (size_update_after_entry_rejected _ _ _ _ _ _ _ _ [] H1 H2 H3).
Defined.

(** * The merged index space *)

(** C6: [get(0)] is [InvalidTableIndex]; for [1 <= k <= 61], [get(k)] is
    the static entry [k] of RFC 7541 Appendix A (as listed in spec section
    6, e.g. 2 is [:method GET], 16 is [accept-encoding: gzip, deflate]);
    for [62 <= k <= 61 + N], with [N] dynamic entries, [get(k)] is the
    [(k-61)]-th newest dynamic entry; beyond, [InvalidTableIndex]. *)
Theorem get_merged_index_space t :
  get t 0 = RErr InvalidTableIndex /\
  (forall k, 1 <= k <= 61 ->
     exists e, get t k = ROk e /\
       entry_fields e = nth (N.to_nat k - 1) rfc7541_static (""%string, ""%string)) /\
  (forall k, 62 <= k <= 61 + N.of_nat (List.length (entries t)) ->
     exists e, nth_error (entries t) (N.to_nat (k - 61) - 1) = Some e /\
       get t k = ROk e) /\
  (forall k, 61 + N.of_nat (List.length (entries t)) < k ->
     get t k = RErr InvalidTableIndex).
Proof.
  split; [reflexivity|]. split; [|split].
  - intros k Hk.
    assert (Hn : exists n, k = N.of_nat n /\ (1 <= n <= 61)%nat)
      by (exists (N.to_nat k); lia).
    destruct Hn as [n [-> Hn]].
    do 62 (destruct n as [|n]; [try lia; eexists; split; reflexivity|]).
    lia.
  - intros k Hk; unfold get.
    replace (k =? 0) with false by (symmetry; apply N.eqb_neq; lia).
    replace (k <=? 61) with false by (symmetry; apply N.leb_gt; lia).
    replace (N.to_nat (k - 61) - 1)%nat with (N.to_nat (k - 62)) by lia.
    destruct (nth_error (entries t) (N.to_nat (k - 62))) as [e|] eqn:He.
    + exists e; auto.
    + apply nth_error_None in He; lia.
  - intros k Hk; unfold get.
    replace (k =? 0) with false by (symmetry; apply N.eqb_neq; lia).
    replace (k <=? 61) with false by (symmetry; apply N.leb_gt; lia).
    destruct (nth_error (entries t) (N.to_nat (k - 62))) as [e|] eqn:He;
      [|reflexivity].
    assert (Hlt : (N.to_nat (k - 62) < List.length (entries t))%nat)
      by (apply nth_error_Some; congruence).
    lia.
Qed.

Lemma get_merged_index_space_witness :
  let t := mkTable [Header (bs "b") (bs "2"); Header (bs "a") (bs "1")] 68 4096 in
  (1 <= 16 <= 61 /\
   exists e, get t 16 = ROk e /\
     entry_fields e = nth (N.to_nat 16 - 1) rfc7541_static (""%string, ""%string)) /\
  (62 <= 63 <= 61 + N.of_nat (List.length (entries t)) /\
   exists e, nth_error (entries t) (N.to_nat (63 - 61) - 1) = Some e /\
     get t 63 = ROk e) /\
  (61 + N.of_nat (List.length (entries t)) < 64 /\ get t 64 = RErr InvalidTableIndex).
Proof.
  intros t.
  destruct (get_merged_index_space t) as (_ & Hs & Hd & Hb).
  split; [split; [lia|apply Hs; lia]|].
  split; [split; [vm_compute; split; discriminate|apply Hd; vm_compute; split; discriminate]|].
  split; [vm_compute; reflexivity|apply Hb; vm_compute; reflexivity].
Defined.

(** * Prefix integers *)

Lemma prefix_mask_int_mask n : 1 <= n <= 8 -> prefix_mask n = int_mask n.
Proof.
  intros Hn.
  assert (Hm : exists m, n = N.of_nat m /\ (1 <= m <= 8)%nat)
    by (exists (N.to_nat n); lia).
  destruct Hm as [m [-> Hm]].
  do 9 (destruct m as [|m]; [try lia; reflexivity|]). lia.
Qed.

Lemma varint_flag_clear c :
  (N.land (Byte.to_N c) VARINT_FLAG =? 0) = negb (flag_set c).
Proof. destruct c; reflexivity. Qed.

Lemma varint_shift x s : N.shiftl (N.land x VARINT_MASK) s = x mod 128 * 2 ^ s.
Proof.
  rewrite N.shiftl_mul_pow2. change VARINT_MASK with (N.ones 7).
  rewrite N.land_ones; reflexivity.
Qed.

Lemma decode_int_loop_cons b rest ret bytes shift :
  decode_int_loop (b :: rest) ret bytes shift =
  if N.land (Byte.to_N b) VARINT_FLAG =? 0
  then ROk (ret + N.shiftl (N.land (Byte.to_N b) VARINT_MASK) shift, rest)
  else if Nat.eqb (S bytes) MAX_BYTES then RErr IntegerOverflow
  else decode_int_loop rest (ret + N.shiftl (N.land (Byte.to_N b) VARINT_MASK) shift)
         (S bytes) (shift + 7).
Proof. reflexivity. Qed.

Lemma continuation_sum_cons c cs i :
  continuation_sum (c :: cs) i =
  (Byte.to_N c mod 128) * 2 ^ (7 * (i - 1)) + continuation_sum cs (i + 1).
Proof. reflexivity. Qed.

Lemma decode_int_loop_ok cs c rest ret bytes :
  forallb flag_set cs = true -> flag_set c = false ->
  (1 <= bytes)%nat -> (bytes + List.length cs < 5)%nat ->
  decode_int_loop (cs ++ c :: rest) ret bytes (7 * (N.of_nat bytes - 1))
  = ROk (ret + continuation_sum (cs ++ [c]) (N.of_nat bytes), rest).
Proof.
  revert ret bytes; induction cs as [|x cs IH]; intros ret bytes Hcs Hc H1 H5.
  - cbn [app]. rewrite decode_int_loop_cons, varint_flag_clear, Hc, continuation_sum_cons.
    cbn [negb continuation_sum]. rewrite varint_shift. f_equal; f_equal; lia.
  - cbn [forallb List.length] in Hcs, H5; apply andb_prop in Hcs as [Hx Hcs].
    rewrite <- !app_comm_cons, decode_int_loop_cons, varint_flag_clear, Hx.
    cbn [negb].
    replace (Nat.eqb (S bytes) MAX_BYTES) with false
      by (symmetry; apply Nat.eqb_neq; unfold MAX_BYTES; lia).
    replace (7 * (N.of_nat bytes - 1) + 7) with (7 * (N.of_nat (S bytes) - 1)) by lia.
    rewrite IH by (auto; lia).
    rewrite continuation_sum_cons, varint_shift.
    replace (N.of_nat (S bytes)) with (N.of_nat bytes + 1) by lia.
    f_equal; f_equal; lia.
Qed.

Lemma decode_int_loop_overflow cs rest ret bytes shift :
  forallb flag_set cs = true -> (1 <= List.length cs)%nat ->
  (bytes + List.length cs = 5)%nat ->
  decode_int_loop (cs ++ rest) ret bytes shift = RErr IntegerOverflow.
Proof.
  revert ret bytes shift; induction cs as [|x cs IH]; intros ret bytes shift Hcs Hl H5;
    cbn [forallb List.length] in *; [lia|].
  apply andb_prop in Hcs as [Hx Hcs].
  rewrite <- app_comm_cons, decode_int_loop_cons, varint_flag_clear, Hx; cbn [negb].
  destruct cs as [|y cs'].
  - replace (Nat.eqb (S bytes) MAX_BYTES) with true
      by (symmetry; apply Nat.eqb_eq; unfold MAX_BYTES; cbn [List.length] in H5; lia).
    reflexivity.
  - replace (Nat.eqb (S bytes) MAX_BYTES) with false
      by (symmetry; apply Nat.eqb_neq; unfold MAX_BYTES; cbn [List.length] in H5; lia).
    apply IH; cbn [List.length] in *; auto; lia.
Qed.

Lemma decode_int_loop_underflow cs ret bytes shift :
  forallb flag_set cs = true -> (bytes + List.length cs < 5)%nat ->
  decode_int_loop cs ret bytes shift = RErr IntegerUnderflow.
Proof.
  revert ret bytes shift; induction cs as [|x cs IH]; intros ret bytes shift Hcs H5;
    cbn [forallb List.length] in *; [reflexivity|].
  apply andb_prop in Hcs as [Hx Hcs].
  rewrite decode_int_loop_cons, varint_flag_clear, Hx; cbn [negb].
  replace (Nat.eqb (S bytes) MAX_BYTES) with false
    by (symmetry; apply Nat.eqb_neq; unfold MAX_BYTES; lia).
  apply IH; auto; lia.
Qed.

(** C4: [decode_int] follows RFC 7541 section 5.1. A prefix width outside
    [1..=8] gives [InvalidIntegerPrefix]. For [1 <= N <= 8], with
    [mask = (1 << N) - 1] ([0xFF] for [N = 8]): an empty buffer gives
    [IntegerUnderflow]; [b0 & mask] is returned when below [mask];
    otherwise each continuation octet adds its low 7 bits shifted by
    [7 * (i - 1)] to [mask], up to a terminating octet among the first
    four continuations (so an encoding of exactly 5 bytes decodes); a
    continuation flag still set on the 5th byte gives [IntegerOverflow];
    running out of input before the terminator gives [IntegerUnderflow]. *)
Theorem decode_int_rfc7541 :
  (forall buf n, n < 1 \/ 8 < n -> decode_int buf n = RErr InvalidIntegerPrefix) /\
  (forall n, 1 <= n <= 8 ->
    decode_int [] n = RErr IntegerUnderflow /\
    (forall b0 rest, N.land (Byte.to_N b0) (int_mask n) < int_mask n ->
       decode_int (b0 :: rest) n = ROk (N.land (Byte.to_N b0) (int_mask n), rest)) /\
    (forall b0 cs c rest, N.land (Byte.to_N b0) (int_mask n) = int_mask n ->
       forallb flag_set cs = true -> (List.length cs <= 3)%nat -> flag_set c = false ->
       decode_int (b0 :: cs ++ c :: rest) n
       = ROk (int_mask n + continuation_sum (cs ++ [c]) 1, rest)) /\
    (forall b0 cs rest, N.land (Byte.to_N b0) (int_mask n) = int_mask n ->
       forallb flag_set cs = true -> List.length cs = 4%nat ->
       decode_int (b0 :: cs ++ rest) n = RErr IntegerOverflow) /\
    (forall b0 cs, N.land (Byte.to_N b0) (int_mask n) = int_mask n ->
       forallb flag_set cs = true -> (List.length cs <= 3)%nat ->
       decode_int (b0 :: cs) n = RErr IntegerUnderflow)).
Proof.
  split.
  - intros buf n Hn; unfold decode_int.
    replace ((n <? 1) || (8 <? n)) with true; [reflexivity|].
    symmetry; apply orb_true_iff.
    destruct Hn as [Hn|Hn]; [left|right]; apply N.ltb_lt; exact Hn.
  - intros n Hn.
    assert (Hok : ((n <? 1) || (8 <? n)) = false).
    { apply orb_false_intro; apply N.ltb_ge; lia. }
    pose proof (prefix_mask_int_mask n Hn) as Hmask.
    unfold decode_int; rewrite Hok, Hmask.
    split; [reflexivity|]. split; [|split; [|split]].
    + intros b0 rest Hlt. apply N.ltb_lt in Hlt; rewrite Hlt; reflexivity.
    + intros b0 cs c rest Heq Hcs Hlen Hc.
      rewrite Heq, N.ltb_irrefl.
      exact (decode_int_loop_ok cs c rest (int_mask n) 1 Hcs Hc (le_n 1)
               ltac:(lia)).
    + intros b0 cs rest Heq Hcs Hlen.
      rewrite Heq, N.ltb_irrefl.
      apply decode_int_loop_overflow; auto; lia.
    + intros b0 cs Heq Hcs Hlen.
      rewrite Heq, N.ltb_irrefl.
      apply decode_int_loop_underflow; auto; lia.
Qed.

Lemma decode_int_rfc7541_witness :
  decode_int [x1f; xff; xff; xff; x7f] 5 = ROk (31 + continuation_sum [xff; xff; xff; x7f] 1, []) /\
  decode_int [x1f; xff; xff; xff; xff; x00] 5 = RErr IntegerOverflow /\
  decode_int [x1f; x80] 5 = RErr IntegerUnderflow /\
  decode_int [x0a] 5 = ROk (10, []) /\
  decode_int [] 5 = RErr IntegerUnderflow /\
  decode_int [x00] 9 = RErr InvalidIntegerPrefix.
Proof.
  destruct decode_int_rfc7541 as [Hpre Hint].
  assert (H5 : 1 <= 5 <= 8) by lia.
  destruct (Hint 5 H5) as (Hempty & Hsmall & Hcont & Hover & Hunder).
  split; [exact (Hcont x1f [xff; xff; xff] x7f [] eq_refl eq_refl ltac:(simpl; lia) eq_refl)|].
  split; [exact (Hover x1f [xff; xff; xff; xff] [x00] eq_refl eq_refl eq_refl)|].
  split; [exact (Hunder x1f [x80] eq_refl eq_refl ltac:(simpl; lia))|].
  split; [exact (Hsmall x0a [] ltac:(vm_compute; reflexivity))|].
  split; [exact Hempty|].
  exact (Hpre [x00] 9 ltac:(right; lia)).
Defined.

(** * Decoder properties beyond the spec's claims *)

Lemma byte_of_to_N x : x <= 255 -> Byte.to_N (byte_of x) = x.
Proof.
  intros Hx; unfold byte_of.
  destruct (Byte.of_N x) as [b|] eqn:Hb.
  - apply Byte.to_of_N; exact Hb.
  - apply Byte.of_N_None_iff in Hb; lia.
Qed.

Lemma flag_clear_lt x : x < 128 -> (N.land x VARINT_FLAG =? 0) = true.
Proof.
  intros Hx. apply N.eqb_eq. change VARINT_FLAG with (2 ^ 7).
  apply N.bits_inj; intros k. rewrite N.land_spec, N.pow2_bits_eqb, N.bits_0.
  destruct (N.eqb_spec 7 k) as [<-|]; [|apply andb_false_r].
  rewrite andb_true_r. apply N.bits_above_log2.
  destruct (N.eq_dec x 0) as [->|Hnz]; [simpl; lia|].
  apply N.log2_lt_pow2; [lia|exact Hx].
Qed.

Lemma low7 x : N.land x VARINT_MASK = x mod 128.
Proof. change VARINT_MASK with (N.ones 7); rewrite N.land_ones; reflexivity. Qed.

Lemma flag_set_ge x : 128 <= x < 256 -> (N.land x VARINT_FLAG =? 0) = false.
Proof.
  intros Hx. apply N.eqb_neq; intros H.
  assert (Hb : N.testbit x 7 = true).
  { rewrite N.testbit_eqb. apply N.eqb_eq.
    replace (x / 2 ^ 7) with 1; [reflexivity|].
    apply N.div_unique with (r := x - 128); change (2 ^ 7) with 128; lia. }
  assert (Hb' : N.testbit (N.land x VARINT_FLAG) 7 = true).
  { rewrite N.land_spec, Hb; reflexivity. }
  rewrite H in Hb'; discriminate.
Qed.

Lemma decode_int_loop_encode f i rest ret bytes :
  (1 <= bytes <= 4)%nat -> (1 <= f)%nat ->
  i < 2 ^ (7 * N.of_nat f) -> i < 2 ^ (7 * (5 - N.of_nat bytes)) ->
  decode_int_loop (encode_cont f i ++ rest) ret bytes (7 * (N.of_nat bytes - 1))
  = ROk (ret + i * 2 ^ (7 * (N.of_nat bytes - 1)), rest).
Proof.
  revert i ret bytes; induction f as [|f IH]; intros i ret bytes Hb Hf Hi Hcap; [lia|].
  cbn [encode_cont].
  destruct (i <? 128) eqn:Hlt.
  - apply N.ltb_lt in Hlt. cbn [app]. rewrite decode_int_loop_cons.
    rewrite byte_of_to_N by lia. rewrite flag_clear_lt by exact Hlt.
    rewrite low7, N.mod_small by exact Hlt. rewrite N.shiftl_mul_pow2. reflexivity.
  - apply N.ltb_ge in Hlt. cbn [app]. rewrite decode_int_loop_cons.
    assert (Hm : i mod 128 < 128) by (apply N.mod_lt; lia).
    rewrite byte_of_to_N by lia. rewrite flag_set_ge by (clear -Hm; generalize dependent (i mod 128); intros; lia).
    assert (Hb4 : (bytes <= 3)%nat).
    { destruct (Nat.le_gt_cases bytes 3) as [|Hgt]; [auto|].
      replace (N.of_nat bytes) with 4 in Hcap by lia. simpl in Hcap. lia. }
    replace (Nat.eqb (S bytes) MAX_BYTES) with false
      by (symmetry; apply Nat.eqb_neq; unfold MAX_BYTES; lia).
    destruct f as [|f'].
    { simpl in Hi. lia. }
    replace (7 * (N.of_nat bytes - 1) + 7) with (7 * (N.of_nat (S bytes) - 1)) by lia.
    rewrite IH; [| lia | lia | | ].
    + f_equal; f_equal.
      rewrite N.shiftl_mul_pow2, low7.
      replace ((i mod 128 + 128) mod 128) with (i mod 128)
        by (apply N.mod_unique with (q := 1); [exact Hm|];
            clear -Hm; generalize dependent (i mod 128); intros; lia).
      replace (7 * (N.of_nat (S bytes) - 1)) with (7 * (N.of_nat bytes - 1) + 7) by lia.
      rewrite N.pow_add_r.
      pose proof (N.div_mod i 128 ltac:(lia)).
      nia.
    + apply N.Div0.div_lt_upper_bound.
      replace (7 * N.of_nat (S (S f'))) with (7 * N.of_nat (S f') + 7) in Hi by lia.
      rewrite N.pow_add_r in Hi. simpl (2 ^ 7) in Hi. lia.
    + apply N.Div0.div_lt_upper_bound.
      replace (7 * (5 - N.of_nat bytes)) with (7 * (5 - N.of_nat (S bytes)) + 7) in Hcap by lia.
      rewrite N.pow_add_r in Hcap. simpl (2 ^ 7) in Hcap. lia.
Qed.

Lemma decode_int_loop_encode_overflow f i rest ret bytes shift :
  (1 <= bytes <= 4)%nat -> i < 2 ^ (7 * N.of_nat f) ->
  2 ^ (7 * (5 - N.of_nat bytes)) <= i ->
  decode_int_loop (encode_cont f i ++ rest) ret bytes shift = RErr IntegerOverflow.
Proof.
  revert i ret bytes shift; induction f as [|f IH]; intros i ret bytes shift Hb Hi Hcap.
  - simpl in Hi. assert (2 ^ (7 * (5 - N.of_nat bytes)) <> 0) by (apply N.pow_nonzero; lia).
    lia.
  - assert (H128 : 128 <= i).
    { eapply N.le_trans; [|exact Hcap].
      change 128 with (2 ^ 7). apply N.pow_le_mono_r; lia. }
    cbn [encode_cont]. replace (i <? 128) with false by (symmetry; apply N.ltb_ge; lia).
    cbn [app]. rewrite decode_int_loop_cons.
    assert (Hm : i mod 128 < 128) by (apply N.mod_lt; lia).
    rewrite byte_of_to_N by lia.
    rewrite flag_set_ge by (clear -Hm; generalize dependent (i mod 128); intros; lia).
    destruct (Nat.eqb (S bytes) MAX_BYTES) eqn:Hmax; [reflexivity|].
    apply Nat.eqb_neq in Hmax; unfold MAX_BYTES in Hmax.
    apply IH; [lia| |].
    + apply N.Div0.div_lt_upper_bound.
      replace (7 * N.of_nat (S f)) with (7 * N.of_nat f + 7) in Hi by lia.
      rewrite N.pow_add_r in Hi. change (2 ^ 7) with 128 in Hi. lia.
    + apply N.div_le_lower_bound; [lia|].
      replace (7 * (5 - N.of_nat bytes)) with (7 * (5 - N.of_nat (S bytes)) + 7) in Hcap by lia.
      rewrite N.pow_add_r in Hcap. change (2 ^ 7) with 128 in Hcap. lia.
Qed.

Lemma prefix_byte n hi x :
  1 <= n <= 8 -> hi < 2 ^ (8 - n) -> x <= 2 ^ n - 1 ->
  N.land (Byte.to_N (byte_of (hi * 2 ^ n + x))) (prefix_mask n) = x.
Proof.
  intros Hn Hhi Hx.
  assert (Hp : 0 < 2 ^ n) by (apply N.neq_0_lt_0, N.pow_nonzero; lia).
  assert (H8 : 2 ^ (8 - n) * 2 ^ n = 256).
  { rewrite <- N.pow_add_r. replace (8 - n + n) with 8 by lia. reflexivity. }
  rewrite byte_of_to_N by nia.
  rewrite prefix_mask_int_mask by exact Hn. unfold int_mask.
  replace (2 ^ n - 1) with (N.ones n) by (rewrite N.ones_equiv; lia).
  rewrite N.land_ones. symmetry; apply N.mod_unique with (q := hi); lia.
Qed.

Lemma prefix_byte_bound n hi x :
  1 <= n <= 8 -> hi < 2 ^ (8 - n) -> x <= 2 ^ n - 1 -> hi * 2 ^ n + x <= 255.
Proof.
  intros Hn Hhi Hx.
  assert (H8 : 2 ^ (8 - n) * 2 ^ n = 256).
  { rewrite <- N.pow_add_r. replace (8 - n + n) with 8 by lia. reflexivity. }
  nia.
Qed.

Lemma decode_int_encode_cases n hi v rest :
  1 <= n <= 8 -> hi < 2 ^ (8 - n) ->
  (v < 2 ^ n - 1 + 2 ^ 28 -> decode_int (encode_int n hi v ++ rest) n = ROk (v, rest)) /\
  (2 ^ n - 1 + 2 ^ 28 <= v -> decode_int (encode_int n hi v ++ rest) n = RErr IntegerOverflow).
Proof.
  intros Hn Hhi.
  assert (Hp : 2 ^ n <> 0) by (apply N.pow_nonzero; lia).
  assert (Hok : ((n <? 1) || (8 <? n)) = false).
  { apply orb_false_intro; apply N.ltb_ge; lia. }
  unfold decode_int, encode_int; rewrite Hok.
  destruct (v <? 2 ^ n - 1) eqn:Hv.
  - apply N.ltb_lt in Hv. cbn [app]. rewrite prefix_byte by (auto; lia).
    rewrite prefix_mask_int_mask by exact Hn; unfold int_mask.
    replace (v <? 2 ^ n - 1) with true by (symmetry; apply N.ltb_lt; exact Hv).
    split; [reflexivity|]. intros H. lia.
  - apply N.ltb_ge in Hv. cbn [app]. rewrite prefix_byte by (auto; lia).
    rewrite prefix_mask_int_mask by exact Hn; unfold int_mask.
    rewrite N.ltb_irrefl.
    assert (Hfuel : v - (2 ^ n - 1) <
                    2 ^ (7 * N.of_nat (S (N.to_nat (N.size (v - (2 ^ n - 1))))))).
    { eapply N.lt_le_trans; [apply N.size_gt|]. apply N.pow_le_mono_r; lia. }
    split; intros Hrange.
    + change 0 with (7 * (N.of_nat 1 - 1)).
      rewrite decode_int_loop_encode; [| lia | lia | exact Hfuel | simpl; lia].
      f_equal; f_equal. simpl. lia.
    + apply decode_int_loop_encode_overflow; [lia | exact Hfuel | simpl; lia].
Qed.

Lemma decode_int_loop_bound b ret bytes m v r :
  (1 <= bytes <= 4)%nat -> ret < m + 2 ^ (7 * (N.of_nat bytes - 1)) ->
  decode_int_loop b ret bytes (7 * (N.of_nat bytes - 1)) = ROk (v, r) ->
  exists used, b = used ++ r /\ (1 <= List.length used <= 5 - bytes)%nat /\
    v < m + 2 ^ 28.
Proof.
  revert ret bytes; induction b as [|c b IH]; intros ret bytes Hb Hret; [discriminate|].
  rewrite decode_int_loop_cons, low7, N.shiftl_mul_pow2.
  assert (Hc : Byte.to_N c mod 128 < 128) by (apply N.mod_lt; lia).
  remember (7 * (N.of_nat bytes - 1)) as s eqn:Hs.
  assert (Hpow : 2 ^ (s + 7) = 2 ^ s * 128) by (rewrite N.pow_add_r; reflexivity).
  assert (Hx : Byte.to_N c mod 128 * 2 ^ s <= 127 * 2 ^ s)
    by (apply N.mul_le_mono_r; clear -Hc; generalize dependent (Byte.to_N c mod 128);
        intros; lia).
  destruct (_ =? 0).
  - intros [= <- <-]. exists [c]; split; [reflexivity|].
    split; [cbn [List.length]; lia|].
    assert (Hle : 2 ^ (s + 7) <= 2 ^ 28) by (apply N.pow_le_mono_r; lia).
    lia.
  - destruct (Nat.eqb (S bytes) MAX_BYTES) eqn:Hmax; [discriminate|].
    apply Nat.eqb_neq in Hmax; unfold MAX_BYTES in Hmax.
    replace (s + 7) with (7 * (N.of_nat (S bytes) - 1)) by lia.
    intros Hrun. apply IH in Hrun as (used & -> & Hlen & Hv); [| lia |].
    + exists (c :: used); split; [reflexivity|].
      split; [cbn [List.length]; lia|exact Hv].
    + replace (7 * (N.of_nat (S bytes) - 1)) with (s + 7) by lia. lia.
Qed.

(** X1: when [decode_int] succeeds it has consumed between one and five
    bytes (the prefix byte and at most four continuation bytes) and returns
    the rest of the buffer untouched; the value it returns is below
    [2^N - 1 + 2^28]. *)
Theorem decode_int_reads_at_most_5 buf n v rest :
  decode_int buf n = ROk (v, rest) ->
  exists used, buf = used ++ rest /\ (1 <= List.length used <= 5)%nat /\
    v < 2 ^ n - 1 + 2 ^ 28.
Proof.
  unfold decode_int.
  destruct ((n <? 1) || (8 <? n)) eqn:Hn; [discriminate|].
  apply orb_false_elim in Hn as [Hn1 Hn8]; apply N.ltb_ge in Hn1, Hn8.
  rewrite prefix_mask_int_mask by lia; unfold int_mask.
  destruct buf as [|b buf]; [discriminate|].
  destruct (N.land (Byte.to_N b) (2 ^ n - 1) <? 2 ^ n - 1) eqn:Hlt.
  - intros [= <- <-]. apply N.ltb_lt in Hlt.
    exists [b]; split; [reflexivity|]. split; [cbn [List.length]; lia|]. lia.
  - intros Hrun. apply N.ltb_ge in Hlt.
    assert (Hle : N.land (Byte.to_N b) (2 ^ n - 1) <= 2 ^ n - 1) by apply N.land_le_r.
    change 0 with (7 * (N.of_nat 1 - 1)) in Hrun.
    apply decode_int_loop_bound with (m := 2 ^ n - 1) in Hrun as (used & -> & Hlen & Hv);
      [| lia | simpl; lia].
    exists (b :: used); split; [reflexivity|]. split; [cbn [List.length]; lia|exact Hv].
Qed.

Lemma huff_flag_high b : (N.land (Byte.to_N b) HUFF_FLAG =? HUFF_FLAG) = (127 <? Byte.to_N b).
Proof. destruct b; reflexivity. Qed.

Lemma encode_int_head n hi v :
  exists tl, encode_int n hi v = byte_of (hi * 2 ^ n + N.min v (2 ^ n - 1)) :: tl.
Proof.
  unfold encode_int. destruct (v <? 2 ^ n - 1) eqn:Hv; eexists.
  - apply N.ltb_lt in Hv. rewrite N.min_l by lia. reflexivity.
  - apply N.ltb_ge in Hv. rewrite N.min_r by lia. reflexivity.
Qed.

Lemma decode_string_encoded hd h len payload :
  h < 2 -> len < 127 + 2 ^ 28 ->
  decode_string hd (encode_int 7 h len ++ payload) =
  if N.of_nat (List.length payload) <? len then RErr StringUnderflow
  else if h =? 1 then
    rbind (hd (firstn (N.to_nat len) payload))
      (fun r => ROk (r, skipn (N.to_nat len) payload))
  else ROk (firstn (N.to_nat len) payload, skipn (N.to_nat len) payload).
Proof.
  intros Hh Hlen.
  assert (Hdi : decode_int (encode_int 7 h len ++ payload) 7 = ROk (len, payload)).
  { apply (decode_int_encode_cases 7 h len payload); [lia|exact Hh|exact Hlen]. }
  destruct (encode_int_head 7 h len) as [tl Htl].
  assert (Hpk : peek_u8 (encode_int 7 h len ++ payload)
                = ROk (byte_of (h * 2 ^ 7 + N.min len (2 ^ 7 - 1))))
    by (rewrite Htl; reflexivity).
  unfold decode_string. rewrite Hpk, Hdi. cbn [rbind].
  rewrite huff_flag_high, byte_of_to_N
    by (change (2 ^ 7) with 128; pose proof (N.le_min_r len (2 ^ 7 - 1));
        change (2 ^ 7 - 1) with 127 in *; lia).
  change (2 ^ 7 - 1) with 127; change (2 ^ 7) with 128.
  replace (127 <? h * 128 + N.min len 127) with (h =? 1).
  2:{ pose proof (N.le_min_r len 127).
      destruct (N.eqb_spec h 1) as [->|Hne]; symmetry;
        [apply N.ltb_lt; lia|apply N.ltb_ge; assert (h = 0) by lia; subst; lia]. }
  reflexivity.
Qed.

Lemma decode_string_literal_cases hd s raw rest :
  (N.of_nat (List.length s) < 127 + 2 ^ 28 ->
   decode_string hd (encode_string s ++ rest) = ROk (s, rest)) /\
  (N.of_nat (List.length raw) < 127 + 2 ^ 28 ->
   decode_string hd (encode_int 7 1 (N.of_nat (List.length raw)) ++ raw ++ rest)
   = rbind (hd raw) (fun r => ROk (r, rest))).
Proof.
  split; intros Hlen.
  - unfold encode_string; rewrite <- app_assoc.
    rewrite decode_string_encoded by (auto; lia).
    rewrite length_app, Nat2N.id.
    replace (N.of_nat (List.length s + List.length rest) <? N.of_nat (List.length s))
      with false by (symmetry; apply N.ltb_ge; lia).
    cbn [N.eqb Pos.eqb].
    rewrite firstn_app, skipn_app, Nat.sub_diag, firstn_all, skipn_all; simpl.
    rewrite app_nil_r; reflexivity.
  - rewrite decode_string_encoded by (auto; lia).
    rewrite length_app, Nat2N.id.
    replace (N.of_nat (List.length raw + List.length rest) <? N.of_nat (List.length raw))
      with false by (symmetry; apply N.ltb_ge; lia).
    cbn [N.eqb Pos.eqb].
    rewrite firstn_app, skipn_app, Nat.sub_diag, firstn_all, skipn_all; simpl.
    rewrite app_nil_r; reflexivity.
Qed.

(** X4: a string literal whose length announces more bytes than the
    buffer holds gives [StringUnderflow], Huffman-flagged or not (the
    Huffman decoder is not called). *)
Theorem decode_string_underflow hd h len payload :
  h < 2 -> len < 127 + 2 ^ 28 -> N.of_nat (List.length payload) < len ->
  decode_string hd (encode_int 7 h len ++ payload) = RErr StringUnderflow.
Proof.
  intros Hh Hlen Hshort. rewrite decode_string_encoded by assumption.
  replace (N.of_nat (List.length payload) <? len) with true
    by (symmetry; apply N.ltb_lt; exact Hshort).
  reflexivity.
Qed.

Lemma get_static_some i : 1 <= i <= 61 -> exists e, get_static i = Some e.
Proof.
  intros Hi.
  assert (Hn : exists n, i = N.of_nat n /\ (1 <= n <= 61)%nat) by (exists (N.to_nat i); lia).
  destruct Hn as [n [-> Hn]].
  do 62 (destruct n as [|n]; [try lia; eexists; reflexivity|]).
  lia.
Qed.

(** X5: [Table::get] never panics, on any table and any index (every
    index 1..61 has a static entry): it returns an entry or
    [InvalidTableIndex]. *)
Theorem get_never_panics t i :
  get t i <> RPanic /\ (forall e, get t i = RErr e -> e = InvalidTableIndex).
Proof.
  split; [|apply get_errors].
  unfold get.
  destruct (N.eqb_spec i 0); [discriminate|].
  destruct (N.leb_spec i 61).
  - destruct (get_static_some i) as [e He]; [lia|]. rewrite He; discriminate.
  - destruct (nth_error _ _); discriminate.
Qed.

Lemma reserve_loop_spec back size need m :
  size = sum_len back -> need <= m ->
  exists dropped back',
    back = dropped ++ back' /\
    reserve_loop back size need m = Some (back', sum_len back') /\
    sum_len back' + need <= m /\
    (forall dropped0 e, dropped = dropped0 ++ [e] -> m < sum_len back' + entry_len e + need).
Proof.
  intros Hs Hneed. revert size Hs; induction back as [|e back IH]; intros size Hs; simpl.
  - exists [], []; simpl in *; subst size.
    replace (m <? 0 + need) with false by (symmetry; apply N.ltb_ge; lia).
    split; [reflexivity|]. split; [reflexivity|]. split; [simpl; lia|].
    intros dropped0 e H; destruct dropped0; discriminate.
  - destruct (m <? size + need) eqn:Hlt.
    + destruct (IH (size - entry_len e)) as (dropped & back' & Hb & Hrun & Hle & Hlast);
        [simpl in Hs; lia|].
      exists (e :: dropped), back'.
      split; [simpl; congruence|]. split; [exact Hrun|]. split; [exact Hle|].
      intros dropped0 e' Hd.
      destruct dropped0 as [|x dropped0]; simpl in Hd; injection Hd as -> Hd.
      * destruct dropped as [|y dropped]; [|destruct dropped; discriminate].
        simpl in Hb; subst back'. apply N.ltb_lt in Hlt; simpl in Hs; lia.
      * eapply Hlast; eauto.
    + exists [], (e :: back).
      apply N.ltb_ge in Hlt; subst size.
      split; [reflexivity|]. split; [reflexivity|]. split; [exact Hlt|].
      intros dropped0 e' H; destruct dropped0; discriminate.
Qed.

(** X6: inserting an entry that fits within [max_size] into a consistent
    table evicts the oldest entries only, and no more than needed: the
    table becomes the new entry in front of a prefix [kept] of the old
    entries, its size is their sum and stays within [max_size], and keeping
    the next old entry as well would exceed [max_size]. *)
Theorem insert_fits_evicts_oldest t e :
  size t = sum_len (entries t) -> entry_len e <= max_size t ->
  exists kept evicted,
    entries t = kept ++ evicted /\
    insert t e = Some (mkTable (e :: kept) (sum_len kept + entry_len e) (max_size t)) /\
    sum_len kept + entry_len e <= max_size t /\
    (forall x evicted', evicted = x :: evicted' ->
       max_size t < sum_len kept + entry_len x + entry_len e).
Proof.
  intros Hs Hfit.
  destruct (reserve_loop_spec (rev (entries t)) (size t) (entry_len e) (max_size t))
    as (dropped & back' & Hb & Hrun & Hle & Hlast);
    [rewrite sum_len_rev; exact Hs|exact Hfit|].
  exists (rev back'), (rev dropped).
  split; [rewrite <- rev_app_distr, <- Hb, rev_involutive; reflexivity|].
  unfold insert, reserve. rewrite Hrun. cbn [entries size max_size].
  rewrite sum_len_rev.
  split; [f_equal; f_equal; lia|]. split; [lia|].
  intros x evicted' Hx. apply (Hlast (rev evicted')).
  rewrite <- (rev_involutive dropped), Hx; reflexivity.
Qed.

Lemma reserve_loop_suffix back size need m back' size' :
  reserve_loop back size need m = Some (back', size') ->
  exists dropped, back = dropped ++ back'.
Proof.
  revert size; induction back as [|e back IH]; intros size; simpl.
  - destruct (_ <? _); [discriminate|]. intros [= <- _]. exists []; reflexivity.
  - destruct (_ <? _).
    + intros H. destruct (IH _ H) as [dropped ->]. exists (e :: dropped); reflexivity.
    + intros [= <- _]. exists []; reflexivity.
Qed.

(** X7: after a successful [insert], index 62 is the inserted entry,
    indices 0..61 answer as before, and every old dynamic index [k] whose
    entry survived the eviction is now [k + 1]. *)
Theorem insert_then_get t e t' :
  insert t e = Some t' ->
  get t' 62 = ROk e /\
  (forall k, k <= 61 -> get t' k = get t k) /\
  (forall k, 62 <= k -> k < 61 + N.of_nat (List.length (entries t')) ->
     get t' (k + 1) = get t k).
Proof.
  unfold insert, reserve.
  destruct (reserve_loop _ _ _ _) as [[back' size']|] eqn:Hrun; [|discriminate].
  intros [= <-].
  destruct (reserve_loop_suffix _ _ _ _ _ _ Hrun) as [dropped Hb].
  assert (Hent : entries t = rev back' ++ rev dropped)
    by (rewrite <- rev_app_distr, <- Hb, rev_involutive; reflexivity).
  split; [reflexivity|]. split.
  - intros k Hk. unfold get. cbn [entries].
    destruct (k =? 0); [reflexivity|].
    replace (k <=? 61) with true by (symmetry; apply N.leb_le; exact Hk). reflexivity.
  - intros k Hk Hlen. cbn [entries List.length] in Hlen. unfold get. cbn [entries].
    replace (k + 1 =? 0) with false by (symmetry; apply N.eqb_neq; lia).
    replace (k =? 0) with false by (symmetry; apply N.eqb_neq; lia).
    replace (k + 1 <=? 61) with false by (symmetry; apply N.leb_gt; lia).
    replace (k <=? 61) with false by (symmetry; apply N.leb_gt; lia).
    replace (N.to_nat (k + 1 - 62)) with (S (N.to_nat (k - 62))) by lia.
    cbn [nth_error]. rewrite Hent, nth_error_app1 by lia. reflexivity.
Qed.

(** X8: a sequence of [queue_size_update] calls leaves the table as it
    was and queues the minimum of the sizes passed and of the ceiling
    already queued: the queued value is at most each of them and is one of
    them. *)
Theorem queue_size_update_min d s sizes :
  let d' := fold_left queue_size_update (s :: sizes) d in
  table d' = table d /\
  exists c, max_size_update d' = Some c /\
    Forall (fun x => c <= x) (s :: sizes) /\
    (forall v, max_size_update d = Some v -> c <= v) /\
    (In c (s :: sizes) \/ max_size_update d = Some c).
Proof.
  revert d s; induction sizes as [|s2 sizes IH]; intros d s; cbn [fold_left].
  - unfold queue_size_update. cbn [table max_size_update]. split; [reflexivity|].
    destruct (max_size_update d) as [v|] eqn:Hd.
    + exists (N.min v s). split; [reflexivity|].
      split; [constructor; [lia|constructor]|].
      split; [intros v' [= <-]; lia|].
      destruct (N.min_spec v s) as [[_ ->]|[_ ->]]; [right; reflexivity|left; left; reflexivity].
    + exists s. split; [reflexivity|]. split; [constructor; [lia|constructor]|].
      split; [discriminate|]. left; left; reflexivity.
  - destruct (IH (queue_size_update d s) s2) as [Htab (c & Hc & Hall & Hle & Hin)].
    cbn [fold_left] in Htab, Hc. split.
    + rewrite Htab; reflexivity.
    + exists c. split; [exact Hc|].
      assert (Hq : exists c0, max_size_update (queue_size_update d s) = Some c0 /\
                     c0 <= s /\ (forall v, max_size_update d = Some v -> c0 <= v) /\
                     (c0 = s \/ max_size_update d = Some c0)).
      { unfold queue_size_update; cbn [max_size_update].
        destruct (max_size_update d) as [v|].
        - exists (N.min v s). split; [reflexivity|]. split; [lia|].
          split; [intros v' [= <-]; lia|].
          destruct (N.min_spec v s) as [[_ ->]|[_ ->]]; [right; reflexivity|left; reflexivity].
        - exists s. split; [reflexivity|]. split; [lia|]. split; [discriminate|]. left; reflexivity. }
      destruct Hq as (c0 & Hc0 & Hc0s & Hc0v & Hc0in).
      assert (Hcc0 : c <= c0) by (apply Hle; exact Hc0).
      split; [constructor; [lia|exact Hall]|].
      split; [intros v Hv; specialize (Hc0v v Hv); lia|].
      destruct Hin as [Hin|Hin].
      * left; right; exact Hin.
      * rewrite Hc0 in Hin; injection Hin as ->.
        destruct Hc0in as [->|Hc0in]; [left; left; reflexivity|right; exact Hc0in].
Qed.

Lemma load_ranges b :
  load b =
  if Byte.to_N b <? 16 then ROk LiteralWithoutIndexing
  else if Byte.to_N b <? 32 then ROk LiteralNeverIndexed
  else if Byte.to_N b <? 64 then ROk SizeUpdate
  else if Byte.to_N b <? 128 then ROk LiteralWithIndexing
  else ROk Indexed.
Proof. destruct b; reflexivity. Qed.

Lemma load_prefix_byte n hi v r :
  1 <= n <= 8 -> hi < 2 ^ (8 - n) ->
  (forall x, x <= 2 ^ n - 1 -> load (byte_of (hi * 2 ^ n + x)) = ROk r) ->
  exists tl, encode_int n hi v = byte_of (hi * 2 ^ n + N.min v (2 ^ n - 1)) :: tl /\
    load (byte_of (hi * 2 ^ n + N.min v (2 ^ n - 1))) = ROk r.
Proof.
  intros Hn Hhi Hx. destruct (encode_int_head n hi v) as [tl Htl].
  exists tl; split; [exact Htl|]. apply Hx, N.le_min_r.
Qed.

Ltac ltb_cases :=
  repeat match goal with
  | |- context [?a <? ?b] =>
      let H := fresh in
      destruct (N.ltb_spec a b) as [H|H]; try (exfalso; lia)
  end.

Lemma load_byte_without x : x < 16 -> load (byte_of x) = ROk LiteralWithoutIndexing.
Proof. intros Hx. rewrite load_ranges, byte_of_to_N by lia. ltb_cases; reflexivity. Qed.

Lemma load_byte_never x : 16 <= x < 32 -> load (byte_of x) = ROk LiteralNeverIndexed.
Proof. intros Hx. rewrite load_ranges, byte_of_to_N by lia. ltb_cases; reflexivity. Qed.

Lemma load_byte_size_update x : 32 <= x < 64 -> load (byte_of x) = ROk SizeUpdate.
Proof. intros Hx. rewrite load_ranges, byte_of_to_N by lia. ltb_cases; reflexivity. Qed.

Lemma load_byte_with_indexing x :
  64 <= x < 128 -> load (byte_of x) = ROk LiteralWithIndexing.
Proof. intros Hx. rewrite load_ranges, byte_of_to_N by lia. ltb_cases; reflexivity. Qed.

Lemma load_byte_indexed x : 128 <= x <= 255 -> load (byte_of x) = ROk Indexed.
Proof. intros Hx. rewrite load_ranges, byte_of_to_N by lia. ltb_cases; reflexivity. Qed.

Lemma decode_one_pass hd en ki d src r s' :
  src <> [] ->
  decode_block hd en ki true (mkSt d src []) = (r, s') ->
  (forall cr, r = ROk cr -> buf s' = []) ->
  decode hd en ki d src =
    (match r with ROk _ => ROk tt | RErr e => RErr e | RPanic => RPanic end, dec s', out s').
Proof.
  intros Hne Hblk Hdone. unfold decode.
  destruct src as [|c src]; [contradiction|].
  cbn [List.length decode_loop]. unfold bind at 1, has_remaining; cbn [buf negb].
  unfold bind at 1. rewrite Hblk.
  destruct r as [cr| e |]; [|reflexivity|reflexivity].
  destruct s' as [d' b' o']; cbn [buf] in Hdone; rewrite (Hdone cr eq_refl).
  reflexivity.
Qed.

Lemma indexed_pass hd en ki d idx :
  idx < 127 + 2 ^ 28 ->
  decode_block hd en ki true (mkSt d (encode_int 7 1 idx) []) =
  match get (table d) idx with
  | ROk e => (ROk false, mkSt d [] [e])
  | RErr er => (RErr er, mkSt d [] [])
  | RPanic => (RPanic, mkSt d [] [])
  end.
Proof.
  intros Hidx.
  destruct (load_prefix_byte 7 1 idx Indexed) as (tl & Htl & Hl); [lia|reflexivity| |].
  { intros x Hx. change (2 ^ 7 - 1) with 127 in Hx. change (2 ^ 7) with 128.
    apply load_byte_indexed; lia. }
  assert (Hdi : decode_int (encode_int 7 1 idx) 7 = ROk (idx, [])).
  { rewrite <- (app_nil_r (encode_int 7 1 idx)).
    apply (decode_int_encode_cases 7 1 idx []); [lia|reflexivity|lia]. }
  unfold decode_block, decode_indexed.
  cbv [bind on_buf liftr ret get_dec emit buf dec out].
  rewrite Htl at 1. cbn [peek_u8 rbind]. rewrite Hl, Hdi.
  destruct (get (table d) idx); reflexivity.
Qed.

(** X2: round trip with the RFC 7541 section 5.1 encoder: for a prefix
    size [N] in 1..8 and high bits [hi] that fit above the prefix,
    [decode_int] reads back every value below [2^N - 1 + 2^28] from its
    encoding followed by any bytes, and returns those bytes; a larger value,
    whose encoding needs a fifth continuation byte, gives
    [IntegerOverflow]. *)
Theorem decode_int_encode_int n hi v rest :
  1 <= n <= 8 -> hi < 2 ^ (8 - n) ->
  (v < 2 ^ n - 1 + 2 ^ 28 -> decode_int (encode_int n hi v ++ rest) n = ROk (v, rest)) /\
  (2 ^ n - 1 + 2 ^ 28 <= v -> decode_int (encode_int n hi v ++ rest) n = RErr IntegerOverflow).
Proof. exact (decode_int_encode_cases n hi v rest). Qed.

(** X3: round trip with the RFC 7541 section 5.2 encoder: a raw string
    literal followed by any bytes decodes to the string and returns those
    bytes; a Huffman-flagged literal hands exactly its payload to the
    Huffman decoder and returns its result, or its error, with the bytes
    that follow. *)
Theorem decode_string_literal hd s raw rest :
  (N.of_nat (List.length s) < 127 + 2 ^ 28 ->
   decode_string hd (encode_string s ++ rest) = ROk (s, rest)) /\
  (N.of_nat (List.length raw) < 127 + 2 ^ 28 ->
   decode_string hd (encode_int 7 1 (N.of_nat (List.length raw)) ++ raw ++ rest)
   = rbind (hd raw) (fun r => ROk (r, rest))).
Proof. exact (decode_string_literal_cases hd s raw rest). Qed.

Lemma encode_int_ne n hi v : encode_int n hi v <> [].
Proof. destruct (encode_int_head n hi v) as [tl ->]; discriminate. Qed.

Lemma decode_int_encode n hi v rest :
  1 <= n <= 8 -> hi < 2 ^ (8 - n) -> v < 2 ^ n - 1 + 2 ^ 28 ->
  decode_int (encode_int n hi v ++ rest) n = ROk (v, rest).
Proof. intros Hn Hhi Hv. apply (decode_int_encode_cases n hi v rest Hn Hhi); exact Hv. Qed.

(** X9: decoding a block made of one indexed representation passes
    [get table idx] to the sink and leaves the decoder unchanged, a queued
    size update included; when [get] fails, [decode] returns its error,
    passes nothing to the sink and leaves the decoder unchanged. *)
Theorem indexed_block hd en ki d idx :
  idx < 127 + 2 ^ 28 ->
  (forall e, get (table d) idx = ROk e ->
     decode hd en ki d (encode_int 7 1 idx) = (ROk tt, d, [e])) /\
  (forall er, get (table d) idx = RErr er ->
     decode hd en ki d (encode_int 7 1 idx) = (RErr er, d, [])).
Proof.
  intros Hidx. split.
  - intros e He. erewrite decode_one_pass;
      [| apply encode_int_ne | rewrite indexed_pass by exact Hidx; rewrite He; reflexivity
       | intros cr [= <-]; reflexivity].
    reflexivity.
  - intros er He. erewrite decode_one_pass;
      [| apply encode_int_ne | rewrite indexed_pass by exact Hidx; rewrite He; reflexivity
       | intros cr [=]].
    reflexivity.
Qed.

Lemma literal_new_name_pass hd en ki d ni name value :
  ni < 2 ->
  N.of_nat (List.length name) < 127 + 2 ^ 28 ->
  N.of_nat (List.length value) < 127 + 2 ^ 28 ->
  decode_block hd en ki true
    (mkSt d (encode_int 4 ni 0 ++ encode_string name ++ encode_string value) []) =
  match en name value with
  | ROk e => (ROk false, mkSt d [] [e])
  | RErr er => (RErr er, mkSt d [] [])
  | RPanic => (RPanic, mkSt d [] [])
  end.
Proof.
  intros Hni Hn Hv.
  assert (Hdi : forall rest, decode_int (encode_int 4 ni 0 ++ rest) 4 = ROk (0, rest))
    by (intros; apply decode_int_encode; [lia|simpl; lia|simpl; lia]).
  assert (Hname : decode_string hd (encode_string name ++ encode_string value)
                  = ROk (name, encode_string value))
    by (apply (decode_string_literal_cases hd name [] (encode_string value)); exact Hn).
  assert (Hval : decode_string hd (encode_string value) = ROk (value, [])).
  { rewrite <- (app_nil_r (encode_string value)).
    apply (decode_string_literal_cases hd value [] []); exact Hv. }
  unfold encode_int at 1. change (2 ^ 4 - 1) with 15. change (2 ^ 4) with 16.
  cbn [N.ltb N.compare Pos.compare Pos.compare_cont app].
  unfold decode_block, decode_literal.
  cbv [bind on_buf liftr ret get_dec emit buf dec out].
  cbn [peek_u8 rbind].
  assert (Hni' : ni = 0 \/ ni = 1) by lia.
  destruct Hni' as [->| ->].
  - rewrite load_byte_without by (cbn; lia). cbv iota beta.
    specialize (Hdi (encode_string name ++ encode_string value)).
    unfold encode_int at 1 in Hdi. change (2 ^ 4 - 1) with 15 in Hdi. change (2 ^ 4) with 16 in Hdi.
    cbn [N.ltb N.compare Pos.compare Pos.compare_cont app] in Hdi.
    rewrite Hdi. cbn [N.eqb]. rewrite Hname, Hval.
    destruct (en name value); reflexivity.
  - rewrite load_byte_never by (cbn; lia). cbv iota beta.
    specialize (Hdi (encode_string name ++ encode_string value)).
    unfold encode_int at 1 in Hdi. change (2 ^ 4 - 1) with 15 in Hdi. change (2 ^ 4) with 16 in Hdi.
    cbn [N.ltb N.compare Pos.compare Pos.compare_cont app] in Hdi.
    rewrite Hdi. cbn [N.eqb]. rewrite Hname, Hval.
    destruct (en name value); reflexivity.
Qed.

Lemma literal_indexed_name_pass hd en ki d ni k value :
  ni < 2 -> 1 <= k < 15 + 2 ^ 28 ->
  N.of_nat (List.length value) < 127 + 2 ^ 28 ->
  decode_block hd en ki true (mkSt d (encode_int 4 ni k ++ encode_string value) []) =
  match get (table d) k with
  | ROk e0 =>
      match ki e0 value with
      | ROk e => (ROk false, mkSt d [] [e])
      | RErr er => (RErr er, mkSt d [] [])
      | RPanic => (RPanic, mkSt d [] [])
      end
  | RErr er => (RErr er, mkSt d (encode_string value) [])
  | RPanic => (RPanic, mkSt d (encode_string value) [])
  end.
Proof.
  intros Hni Hk Hv.
  assert (Hdi : decode_int (encode_int 4 ni k ++ encode_string value) 4
                = ROk (k, encode_string value))
    by (apply decode_int_encode; [lia|simpl; lia|simpl; lia]).
  assert (Hval : decode_string hd (encode_string value) = ROk (value, [])).
  { rewrite <- (app_nil_r (encode_string value)).
    apply (decode_string_literal_cases hd value [] []); exact Hv. }
  destruct (encode_int_head 4 ni k) as [tl Htl].
  assert (Hb : ni * 2 ^ 4 + N.min k (2 ^ 4 - 1) < 32 /\
               (ni = 0 -> ni * 2 ^ 4 + N.min k (2 ^ 4 - 1) < 16) /\
               (ni = 1 -> 16 <= ni * 2 ^ 4 + N.min k (2 ^ 4 - 1)))
    by (pose proof (N.le_min_r k (2 ^ 4 - 1)); simpl in *; lia).
  unfold decode_block, decode_literal.
  cbv [bind on_buf liftr ret get_dec emit buf dec out].
  rewrite Htl at 1. cbn [peek_u8 rbind app].
  assert (Hni' : ni = 0 \/ ni = 1) by lia.
  destruct Hni' as [Hz|Hz].
  - rewrite load_byte_without by (destruct Hb as (_ & Hb & _); apply Hb, Hz).
    cbv iota beta. rewrite Hdi.
    cbv iota beta. replace (k =? 0) with false by (symmetry; apply N.eqb_neq; lia).
    destruct (get (table d) k) as [e0| er |]; [|reflexivity|reflexivity].
    rewrite Hval. destruct (ki e0 value); reflexivity.
  - rewrite load_byte_never by (destruct Hb as (Hb1 & _ & Hb); split; [apply Hb, Hz|exact Hb1]).
    cbv iota beta. rewrite Hdi.
    cbv iota beta. replace (k =? 0) with false by (symmetry; apply N.eqb_neq; lia).
    destruct (get (table d) k) as [e0| er |]; [|reflexivity|reflexivity].
    rewrite Hval. destruct (ki e0 value); reflexivity.
Qed.

Lemma insert_pass_new_name hd en ki d name value :
  N.of_nat (List.length name) < 127 + 2 ^ 28 ->
  N.of_nat (List.length value) < 127 + 2 ^ 28 ->
  decode_block hd en ki true
    (mkSt d (encode_int 6 1 0 ++ encode_string name ++ encode_string value) []) =
  match en name value with
  | ROk e =>
      match insert (table d) e with
      | Some t => (ROk false, mkSt (mkDecoder (max_size_update d) t) [] [e])
      | None => (RPanic, mkSt d [] [])
      end
  | RErr er => (RErr er, mkSt d [] [])
  | RPanic => (RPanic, mkSt d [] [])
  end.
Proof.
  intros Hn Hv.
  assert (Hdi : decode_int (encode_int 6 1 0 ++ encode_string name ++ encode_string value) 6
                = ROk (0, encode_string name ++ encode_string value))
    by (apply decode_int_encode; [lia|simpl; lia|simpl; lia]).
  assert (Hname : decode_string hd (encode_string name ++ encode_string value)
                  = ROk (name, encode_string value))
    by (apply (decode_string_literal_cases hd name [] (encode_string value)); exact Hn).
  assert (Hval : decode_string hd (encode_string value) = ROk (value, [])).
  { rewrite <- (app_nil_r (encode_string value)).
    apply (decode_string_literal_cases hd value [] []); exact Hv. }
  destruct (encode_int_head 6 1 0) as [tl Htl].
  unfold decode_block, decode_literal, table_insert.
  cbv [bind on_buf liftr ret get_dec put_dec emit buf dec out].
  rewrite Htl at 1. cbn [peek_u8 rbind app].
  rewrite load_byte_with_indexing by (simpl; lia).
  cbv iota beta. rewrite Hdi. cbv iota beta. cbn [N.eqb].
  rewrite Hname. cbv iota beta. rewrite Hval. cbv iota beta.
  destruct (en name value) as [e| er |]; [|reflexivity|reflexivity].
  destruct d as [p t]; cbn [table max_size_update].
  destruct (insert t e); reflexivity.
Qed.

Lemma insert_pass_indexed_name hd en ki d k value :
  1 <= k < 63 + 2 ^ 28 ->
  N.of_nat (List.length value) < 127 + 2 ^ 28 ->
  decode_block hd en ki true (mkSt d (encode_int 6 1 k ++ encode_string value) []) =
  match get (table d) k with
  | ROk e0 =>
      match ki e0 value with
      | ROk e =>
          match insert (table d) e with
          | Some t => (ROk false, mkSt (mkDecoder (max_size_update d) t) [] [e])
          | None => (RPanic, mkSt d [] [])
          end
      | RErr er => (RErr er, mkSt d [] [])
      | RPanic => (RPanic, mkSt d [] [])
      end
  | RErr er => (RErr er, mkSt d (encode_string value) [])
  | RPanic => (RPanic, mkSt d (encode_string value) [])
  end.
Proof.
  intros Hk Hv.
  assert (Hdi : decode_int (encode_int 6 1 k ++ encode_string value) 6
                = ROk (k, encode_string value))
    by (apply decode_int_encode; [lia|simpl; lia|simpl; lia]).
  assert (Hval : decode_string hd (encode_string value) = ROk (value, [])).
  { rewrite <- (app_nil_r (encode_string value)).
    apply (decode_string_literal_cases hd value [] []); exact Hv. }
  destruct (encode_int_head 6 1 k) as [tl Htl].
  unfold decode_block, decode_literal, table_insert.
  cbv [bind on_buf liftr ret get_dec put_dec emit buf dec out].
  rewrite Htl at 1. cbn [peek_u8 rbind app].
  rewrite load_byte_with_indexing
    by (pose proof (N.le_min_r k (2 ^ 6 - 1)); change (2 ^ 6 - 1) with 63 in *;
        change (2 ^ 6) with 64; lia).
  cbv iota beta. rewrite Hdi. cbv iota beta.
  replace (k =? 0) with false by (symmetry; apply N.eqb_neq; lia).
  destruct (get (table d) k) as [e0| er |]; [|reflexivity|reflexivity].
  rewrite Hval. cbv iota beta.
  destruct (ki e0 value) as [e| er |]; [|reflexivity|reflexivity].
  destruct d as [p t]; cbn [table max_size_update].
  destruct (insert t e); reflexivity.
Qed.

Lemma size_update_pass hd en ki d v :
  v < 31 + 2 ^ 28 ->
  decode_block hd en ki true (mkSt d (encode_int 5 1 v) []) =
  match max_size_update d with
  | None => (RErr InvalidMaxDynamicSize, mkSt (mkDecoder None (table d)) (encode_int 5 1 v) [])
  | Some max =>
      if max <? v then (RErr InvalidMaxDynamicSize, mkSt (mkDecoder None (table d)) [] [])
      else match set_max_size (table d) v with
           | None => (RPanic, mkSt (mkDecoder None (table d)) [] [])
           | Some t => (ROk true, mkSt (mkDecoder None t) [] [])
           end
  end.
Proof.
  intros Hv.
  assert (Hdi : decode_int (encode_int 5 1 v) 5 = ROk (v, [])).
  { rewrite <- (app_nil_r (encode_int 5 1 v)).
    apply decode_int_encode; [lia|simpl; lia|simpl; lia]. }
  destruct (encode_int_head 5 1 v) as [tl Htl].
  unfold decode_block, take_max_size_update, process_size_update.
  cbv [bind on_buf liftr ret throw panic get_dec put_dec emit buf dec out].
  rewrite Htl at 1. cbn [peek_u8 rbind].
  rewrite load_byte_size_update
    by (pose proof (N.le_min_r v (2 ^ 5 - 1)); change (2 ^ 5 - 1) with 31 in *;
        change (2 ^ 5) with 32; lia).
  cbv iota beta. cbn [max_size_update table].
  destruct (max_size_update d) as [max|]; [|reflexivity].
  rewrite Hdi. cbv iota beta.
  destruct (max <? v); [reflexivity|].
  cbn [table max_size_update].
  destruct (set_max_size (table d) v); reflexivity.
Qed.

(** X10: a block made of one dynamic table size update to [v]: on the
    default decoder, or with no size update queued, it is rejected with
    [InvalidMaxDynamicSize] and the decoder unchanged; with a queued
    ceiling below [v] it is rejected as well and the ceiling is consumed;
    with [v] within the queued ceiling, on a consistent table, it succeeds,
    clears the ceiling and applies [set_max_size v]. *)
Theorem size_update_block hd en ki d v :
  v < 31 + 2 ^ 28 ->
  decode hd en ki default (encode_int 5 1 v) = (RErr InvalidMaxDynamicSize, default, []) /\
  (max_size_update d = None ->
     decode hd en ki d (encode_int 5 1 v) = (RErr InvalidMaxDynamicSize, d, [])) /\
  (forall c, max_size_update d = Some c -> c < v ->
     decode hd en ki d (encode_int 5 1 v) =
       (RErr InvalidMaxDynamicSize, mkDecoder None (table d), [])) /\
  (forall c, max_size_update d = Some c -> v <= c ->
     size (table d) = sum_len (entries (table d)) ->
     exists t', set_max_size (table d) v = Some t' /\
       decode hd en ki d (encode_int 5 1 v) = (ROk tt, mkDecoder None t', [])).
Proof.
  intros Hv.
  assert (Hnone : forall d0, max_size_update d0 = None ->
            decode hd en ki d0 (encode_int 5 1 v) = (RErr InvalidMaxDynamicSize, d0, [])).
  { intros d0 H0. erewrite decode_one_pass;
      [| apply encode_int_ne | rewrite size_update_pass by exact Hv; rewrite H0; reflexivity
       | intros cr [=]].
    destruct d0 as [p t]; cbn in H0 |- *; subst p; reflexivity. }
  split; [apply Hnone; reflexivity|]. split; [exact (Hnone d)|]. split.
  - intros c Hc Hlt. erewrite decode_one_pass;
      [| apply encode_int_ne | rewrite size_update_pass by exact Hv; rewrite Hc;
         replace (c <? v) with true by (symmetry; apply N.ltb_lt; exact Hlt); reflexivity
       | intros cr [=]].
    reflexivity.
  - intros c Hc Hle Hs.
    destruct (set_max_size_spec (table d) v Hs) as (t' & Hset & _).
    exists t'. split; [exact Hset|].
    erewrite decode_one_pass;
      [| apply encode_int_ne | rewrite size_update_pass by exact Hv; rewrite Hc;
         replace (c <? v) with false by (symmetry; apply N.ltb_ge; exact Hle);
         rewrite Hset; reflexivity
       | intros cr [= <-]; reflexivity].
    reflexivity.
Qed.

(** X11: a block made of one literal without indexing ([ni = 0]) or never
    indexed ([ni = 1]): with a literal name it passes [Entry::new(name,
    value)] to the sink, or returns its error; with an indexed name [k] it
    passes [key_into_entry(get k, value)], or returns the error of either;
    in every case the decoder is left unchanged. *)
Theorem literal_without_indexing_block hd en ki d ni name value :
  ni < 2 ->
  N.of_nat (List.length name) < 127 + 2 ^ 28 ->
  N.of_nat (List.length value) < 127 + 2 ^ 28 ->
  (forall e, en name value = ROk e ->
     decode hd en ki d (encode_int 4 ni 0 ++ encode_string name ++ encode_string value)
     = (ROk tt, d, [e])) /\
  (forall er, en name value = RErr er ->
     decode hd en ki d (encode_int 4 ni 0 ++ encode_string name ++ encode_string value)
     = (RErr er, d, [])) /\
  (forall k e0 e, 1 <= k < 15 + 2 ^ 28 -> get (table d) k = ROk e0 -> ki e0 value = ROk e ->
     decode hd en ki d (encode_int 4 ni k ++ encode_string value) = (ROk tt, d, [e])) /\
  (forall k e0 er, 1 <= k < 15 + 2 ^ 28 -> get (table d) k = ROk e0 -> ki e0 value = RErr er ->
     decode hd en ki d (encode_int 4 ni k ++ encode_string value) = (RErr er, d, [])) /\
  (forall k er, 1 <= k < 15 + 2 ^ 28 -> get (table d) k = RErr er ->
     decode hd en ki d (encode_int 4 ni k ++ encode_string value) = (RErr er, d, [])).
Proof.
  intros Hni Hn Hv.
  assert (Hne : forall k rest, encode_int 4 ni k ++ rest <> [])
    by (intros k rest; destruct (encode_int_head 4 ni k) as [tl ->]; discriminate).
  split; [|split; [|split; [|split]]].
  - intros e He. erewrite decode_one_pass;
      [| apply Hne | rewrite literal_new_name_pass by assumption; rewrite He; reflexivity
       | intros cr [= <-]; reflexivity].
    reflexivity.
  - intros er He. erewrite decode_one_pass;
      [| apply Hne | rewrite literal_new_name_pass by assumption; rewrite He; reflexivity
       | intros cr [=]].
    reflexivity.
  - intros k e0 e Hk Hg Hki. erewrite decode_one_pass;
      [| apply Hne | rewrite literal_indexed_name_pass by assumption; rewrite Hg, Hki; reflexivity
       | intros cr [= <-]; reflexivity].
    reflexivity.
  - intros k e0 er Hk Hg Hki. erewrite decode_one_pass;
      [| apply Hne | rewrite literal_indexed_name_pass by assumption; rewrite Hg, Hki; reflexivity
       | intros cr [=]].
    reflexivity.
  - intros k er Hk Hg. erewrite decode_one_pass;
      [| apply Hne | rewrite literal_indexed_name_pass by assumption; rewrite Hg; reflexivity
       | intros cr [=]].
    reflexivity.
Qed.

Lemma insert_fits_some t e :
  size t = sum_len (entries t) -> entry_len e <= max_size t ->
  exists t', insert t e = Some t' /\ get t' 62 = ROk e.
Proof.
  intros Hs Hfit.
  destruct (reserve_loop_spec (rev (entries t)) (size t) (entry_len e) (max_size t))
    as (dropped & back' & _ & Hrun & _);
    [rewrite sum_len_rev; exact Hs|exact Hfit|].
  unfold insert, reserve. rewrite Hrun. eexists; split; reflexivity.
Qed.

(** X12: a block made of one literal with incremental indexing, on a
    consistent table, whose entry fits within [max_size]: the entry is
    inserted (index 62 then names it), passed to the sink, and the queued
    size update is left as it was. *)
Theorem literal_with_indexing_block hd en ki d name value :
  size (table d) = sum_len (entries (table d)) ->
  N.of_nat (List.length value) < 127 + 2 ^ 28 ->
  (forall e, N.of_nat (List.length name) < 127 + 2 ^ 28 ->
     en name value = ROk e -> entry_len e <= max_size (table d) ->
     exists t', insert (table d) e = Some t' /\ get t' 62 = ROk e /\
       decode hd en ki d (encode_int 6 1 0 ++ encode_string name ++ encode_string value)
       = (ROk tt, mkDecoder (max_size_update d) t', [e])) /\
  (forall k e0 e, 1 <= k < 63 + 2 ^ 28 -> get (table d) k = ROk e0 -> ki e0 value = ROk e ->
     entry_len e <= max_size (table d) ->
     exists t', insert (table d) e = Some t' /\ get t' 62 = ROk e /\
       decode hd en ki d (encode_int 6 1 k ++ encode_string value)
       = (ROk tt, mkDecoder (max_size_update d) t', [e])).
Proof.
  intros Hs Hv.
  assert (Hne : forall k rest, encode_int 6 1 k ++ rest <> [])
    by (intros k rest; destruct (encode_int_head 6 1 k) as [tl ->]; discriminate).
  split.
  - intros e Hn He Hfit.
    destruct (insert_fits_some (table d) e Hs Hfit) as (t' & Hins & Hget).
    exists t'. split; [exact Hins|]. split; [exact Hget|].
    erewrite decode_one_pass;
      [| apply Hne | rewrite insert_pass_new_name by assumption; rewrite He, Hins; reflexivity
       | intros cr [= <-]; reflexivity].
    reflexivity.
  - intros k e0 e Hk Hg Hki Hfit.
    destruct (insert_fits_some (table d) e Hs Hfit) as (t' & Hins & Hget).
    exists t'. split; [exact Hins|]. split; [exact Hget|].
    erewrite decode_one_pass;
      [| apply Hne | rewrite insert_pass_indexed_name by assumption; rewrite Hg, Hki, Hins;
         reflexivity
       | intros cr [= <-]; reflexivity].
    reflexivity.
Qed.

Definition ceiling_inv (p0 : option N) (m0 : N) (d : Decoder) : Prop :=
  (max_size_update d = p0 \/ max_size_update d = None) /\
  (max_size (table d) = m0 \/ exists c, p0 = Some c /\ max_size (table d) <= c).

Lemma insert_max_size t e t' : insert t e = Some t' -> max_size t' = max_size t.
Proof.
  unfold insert, reserve. destruct (reserve_loop _ _ _ _) as [[b s]|]; [|discriminate].
  intros [= <-]; reflexivity.
Qed.

Lemma set_max_size_max t n t' : set_max_size t n = Some t' -> max_size t' = n.
Proof.
  unfold set_max_size, consolidate. cbn [entries size max_size].
  destruct (consolidate_loop _ _ _) as [[b s]|]; [|discriminate].
  intros [= <-]; reflexivity.
Qed.

Section Ceiling.

Variable p0 : option N.
Variable m0 : N.

Lemma table_insert_ceiling e : keeps (ceiling_inv p0 m0) (table_insert e).
Proof.
  intros s r s'; unfold table_insert, bind, get_dec, put_dec, panic; cbn [dec].
  destruct (insert (table (dec s)) e) as [t|] eqn:Hins.
  - intros [= _ <-] _ [Hp Hm]; unfold ceiling_inv; cbn [dec max_size_update table].
    rewrite (insert_max_size _ _ _ Hins). auto.
  - intros [= <- _]; congruence.
Qed.

Lemma size_update_ceiling (cr : bool) :
  keeps (ceiling_inv p0 m0)
    (p <- take_max_size_update ;;
     match p with
     | Some max =>
         if cr then process_size_update max ;;; ret cr else throw InvalidMaxDynamicSize
     | None => throw InvalidMaxDynamicSize
     end).
Proof.
  intros s r s' Hrun Hr [Hp Hm].
  unfold take_max_size_update, bind at 1 in Hrun.
  unfold bind, get_dec, put_dec, ret at 1 in Hrun; cbn [dec buf out] in Hrun.
  destruct (max_size_update (dec s)) as [max|] eqn:Hmax.
  - assert (Hp0 : p0 = Some max) by (destruct Hp as [Hp|Hp]; congruence).
    destruct cr.
    + unfold process_size_update, bind, on_buf in Hrun; cbn [dec buf out] in Hrun.
      destruct (decode_int (buf s) 5) as [[n rest]| e |]; [| | ].
      * destruct (max <? n) eqn:Hlt.
        -- unfold throw in Hrun; injection Hrun as _ <-.
           split; [right; reflexivity|exact Hm].
        -- cbv [get_dec put_dec panic ret] in Hrun; cbn [dec table] in Hrun.
           destruct (set_max_size (table (dec s)) n) as [t|] eqn:Hset.
           ++ injection Hrun as _ <-. cbn [dec max_size_update table].
              split; [right; reflexivity|right].
              exists max; split; [exact Hp0|].
              cbn [table]; rewrite (set_max_size_max _ _ _ Hset). apply N.ltb_ge; exact Hlt.
           ++ injection Hrun as <- _; contradiction.
      * injection Hrun as _ <-. split; [right; reflexivity|exact Hm].
      * injection Hrun as <- _; contradiction.
    + unfold throw in Hrun; injection Hrun as _ <-. split; [right; reflexivity|exact Hm].
  - unfold throw in Hrun; injection Hrun as _ <-. split; [right; reflexivity|exact Hm].
Qed.

#[local] Hint Resolve table_insert_ceiling : keeps.

Lemma decode_block_ceiling hd en ki cr : keeps (ceiling_inv p0 m0) (decode_block hd en ki cr).
Proof.
  unfold decode_block.
  apply bind_keeps; [apply on_buf_keeps|]; intros b.
  apply bind_keeps; [apply liftr_keeps|]; intros r.
  destruct r; [| | | | apply size_update_ceiling];
    unfold decode_indexed, decode_literal; repeat keeps_step.
Qed.

Lemma decode_loop_ceiling hd en ki fuel cr :
  keeps (ceiling_inv p0 m0) (decode_loop hd en ki fuel cr).
Proof.
  revert cr; induction fuel as [|fuel IH]; intros cr; simpl; [apply panic_keeps|].
  repeat keeps_step. apply decode_block_ceiling.
Qed.

End Ceiling.

(** X13: a [decode] that does not panic leaves the table's [max_size]
    unchanged or within the size update queued before the call, and leaves
    the queued size update as it was or cleared, never another value. *)
Theorem decode_respects_ceiling hd en ki d src r d' out :
  decode hd en ki d src = (r, d', out) -> r <> RPanic ->
  (max_size_update d' = max_size_update d \/ max_size_update d' = None) /\
  (max_size (table d') = max_size (table d) \/
   exists c, max_size_update d = Some c /\ max_size (table d') <= c).
Proof.
  unfold decode.
  destruct (decode_loop hd en ki _ true _) as [r0 s] eqn:Hrun.
  intros [= <- <- _] Hr.
  exact (decode_loop_ceiling (max_size_update d) (max_size (table d)) hd en ki _ _ _ _ _
           Hrun Hr (conj (or_introl eq_refl) (or_introl eq_refl))).
Qed.

(** Progress: how far a computation moves the cursor. *)
Definition shrinks {A} (m : M A) : Prop :=
  forall s a s', m s = (ROk a, s') -> (List.length (buf s') <= List.length (buf s))%nat.

Definition strict {A} (m : M A) : Prop :=
  forall s a s', m s = (ROk a, s') -> (List.length (buf s') < List.length (buf s))%nat.

Lemma bind_shrinks {A B} (m : M A) (k : A -> M B) :
  shrinks m -> (forall a, shrinks (k a)) -> shrinks (bind m k).
Proof.
  intros Hm Hk s b s' Hrun; unfold bind in Hrun.
  destruct (m s) as [[a| e |] s1] eqn:Hs1; try discriminate.
  specialize (Hm _ _ _ Hs1); specialize (Hk _ _ _ _ Hrun); lia.
Qed.

Lemma bind_strict_l {A B} (m : M A) (k : A -> M B) :
  strict m -> (forall a, shrinks (k a)) -> strict (bind m k).
Proof.
  intros Hm Hk s b s' Hrun; unfold bind in Hrun.
  destruct (m s) as [[a| e |] s1] eqn:Hs1; try discriminate.
  specialize (Hm _ _ _ Hs1); specialize (Hk _ _ _ _ Hrun); lia.
Qed.

Lemma bind_strict_r {A B} (m : M A) (k : A -> M B) :
  shrinks m -> (forall a, strict (k a)) -> strict (bind m k).
Proof.
  intros Hm Hk s b s' Hrun; unfold bind in Hrun.
  destruct (m s) as [[a| e |] s1] eqn:Hs1; try discriminate.
  specialize (Hm _ _ _ Hs1); specialize (Hk _ _ _ _ Hrun); lia.
Qed.

Lemma same_buf_shrinks {A} (m : M A) :
  (forall s r s', m s = (r, s') -> buf s' = buf s) -> shrinks m.
Proof. intros H s a s' Hrun; rewrite (H _ _ _ Hrun); lia. Qed.

Lemma throw_strict {A} e : strict (@throw A e).
Proof. intros s a s'; discriminate. Qed.

Lemma ret_shrinks {A} (a : A) : shrinks (ret a).
Proof. apply same_buf_shrinks; intros s r s' [= _ <-]; reflexivity. Qed.

Lemma throw_shrinks {A} e : shrinks (@throw A e).
Proof. apply same_buf_shrinks; intros s r s' [= _ <-]; reflexivity. Qed.

Lemma panic_shrinks {A} : shrinks (@panic A).
Proof. apply same_buf_shrinks; intros s r s' [= _ <-]; reflexivity. Qed.

Lemma liftr_shrinks {A} (r : res A) : shrinks (liftr r).
Proof. apply same_buf_shrinks; intros s r' s'; destruct r; intros [= _ <-]; reflexivity. Qed.

Lemma get_dec_shrinks : shrinks get_dec.
Proof. apply same_buf_shrinks; intros s r s' [= _ <-]; reflexivity. Qed.

Lemma put_dec_shrinks d : shrinks (put_dec d).
Proof. apply same_buf_shrinks; intros s r s' [= _ <-]; reflexivity. Qed.

Lemma emit_shrinks e : shrinks (emit e).
Proof. apply same_buf_shrinks; intros s r s' [= _ <-]; reflexivity. Qed.

Lemma on_buf_shrinks {A} (f : list byte -> res (A * list byte)) :
  (forall b a r, f b = ROk (a, r) -> (List.length r <= List.length b)%nat) ->
  shrinks (on_buf f).
Proof.
  intros Hf s a s'; unfold on_buf.
  destruct (f (buf s)) as [[x r]| e |] eqn:Hb; try discriminate.
  intros [= _ <-]; exact (Hf _ _ _ Hb).
Qed.

Lemma on_buf_strict {A} (f : list byte -> res (A * list byte)) :
  (forall b a r, f b = ROk (a, r) -> (List.length r < List.length b)%nat) ->
  strict (on_buf f).
Proof.
  intros Hf s a s'; unfold on_buf.
  destruct (f (buf s)) as [[x r]| e |] eqn:Hb; try discriminate.
  intros [= _ <-]; exact (Hf _ _ _ Hb).
Qed.

Lemma decode_int_loop_suffix b ret bytes shift v r :
  decode_int_loop b ret bytes shift = ROk (v, r) -> (List.length r < List.length b)%nat.
Proof.
  revert ret bytes shift; induction b as [|c b IH]; intros ret bytes shift; simpl;
    [discriminate|].
  destruct (_ =? 0); [intros [= _ <-]; lia|].
  destruct (Nat.eqb _ _); [discriminate|]. intros H; apply IH in H; lia.
Qed.

Lemma decode_int_shorter b n v r :
  decode_int b n = ROk (v, r) -> (List.length r < List.length b)%nat.
Proof.
  unfold decode_int. destruct (_ || _); [discriminate|].
  destruct b as [|c b]; [discriminate|].
  destruct (_ <? _); [intros [= _ <-]; simpl; lia|].
  intros H; apply decode_int_loop_suffix in H; simpl; lia.
Qed.

Lemma decode_string_shorter hd b v r :
  decode_string hd b = ROk (v, r) -> (List.length r <= List.length b)%nat.
Proof.
  unfold decode_string. destruct b as [|c b]; [discriminate|]. cbn [peek_u8 rbind].
  destruct (decode_int (c :: b) 7) as [[len rest]| |] eqn:Hi; try discriminate.
  apply decode_int_shorter in Hi. cbn [rbind].
  destruct (_ <? _); [discriminate|].
  destruct (_ =? _).
  - destruct (hd _); cbn [rbind]; [intros [= _ <-]|discriminate|discriminate].
    rewrite length_skipn; lia.
  - unfold take; intros [= _ <-]. rewrite length_skipn; lia.
Qed.

Lemma peek_shorter b a r :
  rbind (peek_u8 b) (fun x => ROk (x, b)) = ROk (a, r) -> (List.length r <= List.length b)%nat.
Proof. destruct b; cbn; [discriminate|]; intros H; injection H; intros <- _; simpl; lia. Qed.

Lemma take_max_size_update_shrinks : shrinks take_max_size_update.
Proof.
  apply same_buf_shrinks; intros s r s'.
  unfold take_max_size_update, bind, get_dec, put_dec, ret; cbn. intros [= _ <-]; reflexivity.
Qed.

Lemma table_insert_shrinks e : shrinks (table_insert e).
Proof.
  apply same_buf_shrinks; intros s r s'.
  unfold table_insert, bind, get_dec, put_dec, panic; cbn.
  destruct (insert _ _); intros [= _ <-]; reflexivity.
Qed.

Create HintDb prog.
#[export] Hint Resolve bind_shrinks ret_shrinks throw_shrinks panic_shrinks liftr_shrinks
  get_dec_shrinks put_dec_shrinks emit_shrinks take_max_size_update_shrinks
  table_insert_shrinks throw_strict : prog.

Ltac prog_step :=
  match goal with
  | |- shrinks (bind _ _) => apply bind_shrinks; [ | intro ]
  | |- shrinks (match ?x with _ => _ end) => destruct x
  | |- shrinks (if ?x then _ else _) => destruct x
  | |- shrinks (on_buf _) => apply on_buf_shrinks; intros ? ? ?;
       first [ apply decode_string_shorter | apply peek_shorter
             | intros H; apply decode_int_shorter in H; lia ]
  | _ => eauto with prog
  end.

Lemma process_size_update_strict max : strict (process_size_update max).
Proof.
  unfold process_size_update. apply bind_strict_l.
  - apply on_buf_strict; intros b a r; apply decode_int_shorter.
  - intros n; repeat prog_step.
Qed.

Lemma decode_block_strict hd en ki cr : strict (decode_block hd en ki cr).
Proof.
  unfold decode_block.
  apply bind_strict_r; [repeat prog_step|]; intros b.
  apply bind_strict_r; [apply liftr_shrinks|]; intros r.
  destruct r.
  1: unfold decode_indexed; apply bind_strict_l; [apply bind_strict_l;
       [apply on_buf_strict; intros ? ? ?; apply decode_int_shorter|intros; repeat prog_step]
      |intros; repeat prog_step].
  1-3: apply bind_strict_l; [|intros; repeat prog_step];
       unfold decode_literal; apply bind_strict_l;
       [apply on_buf_strict; intros ? ? ?; apply decode_int_shorter|intros; repeat prog_step].
  apply bind_strict_r; [apply take_max_size_update_shrinks|]; intros p.
  destruct p as [max|]; [|apply throw_strict].
  destruct cr; [|apply throw_strict].
  apply bind_strict_l; [apply process_size_update_strict|intros; apply ret_shrinks].
Qed.

Lemma decode_loop_fuel hd en ki f g cr s :
  (List.length (buf s) < f)%nat -> (List.length (buf s) < g)%nat ->
  decode_loop hd en ki f cr s = decode_loop hd en ki g cr s.
Proof.
  revert g cr s; induction f as [|f IH]; intros g cr s Hf Hg; [lia|].
  destruct g as [|g]; [lia|].
  cbn [decode_loop]. unfold bind at 1 3, has_remaining.
  destruct (buf s) as [|c rest] eqn:Hb; cbn [negb]; [reflexivity|].
  unfold bind.
  destruct (decode_block hd en ki cr s) as [[cr'| e |] s1] eqn:Hblk; try reflexivity.
  pose proof (decode_block_strict hd en ki cr _ _ _ Hblk) as Hlt.
  rewrite Hb in Hlt; cbn [List.length] in *.
  apply IH; lia.
Qed.

Lemma decode_block_cr_irrelevant hd en ki cr cr' s :
  max_size_update (dec s) = None ->
  decode_block hd en ki cr s = decode_block hd en ki cr' s.
Proof.
  intros Hn. unfold decode_block, bind, on_buf, liftr.
  destruct (rbind (peek_u8 (buf s)) _) as [[b rest]| e |]; try reflexivity.
  destruct (load b) as [[]| e |]; try reflexivity.
  unfold take_max_size_update, get_dec, put_dec, ret; cbn. rewrite Hn.
  reflexivity.
Qed.

Lemma decode_loop_cr_irrelevant hd en ki f cr cr' s :
  max_size_update (dec s) = None ->
  decode_loop hd en ki f cr s = decode_loop hd en ki f cr' s.
Proof.
  intros Hn; destruct f as [|f]; [reflexivity|]. cbn [decode_loop].
  unfold bind at 1 3, has_remaining; cbv beta iota.
  destruct (negb _); [|reflexivity].
  unfold bind; rewrite (decode_block_cr_irrelevant hd en ki cr cr' s Hn); reflexivity.
Qed.

Lemma decode_loop_done hd en ki f cr s s' :
  decode_loop hd en ki f cr s = (ROk tt, s') -> buf s' = [].
Proof.
  revert cr s; induction f as [|f IH]; intros cr s; cbn [decode_loop]; [discriminate|].
  unfold bind at 1, has_remaining.
  destruct (buf s) as [|c rest] eqn:Hb; cbn [negb].
  - intros [= <-]; exact Hb.
  - unfold bind. destruct (decode_block hd en ki cr s) as [[cr'| e |] s1];
      [apply IH|discriminate|discriminate].
Qed.

(** Entries already passed to the sink before the computation starts. *)
Definition pre_out (o : list Entry) (s : St) : St :=
  mkSt (dec s) (buf s) (o ++ out s).

Definition oshift {A} (m : M A) : Prop :=
  forall s o, m (pre_out o s) = (fst (m s), pre_out o (snd (m s))).

Lemma bind_oshift {A B} (m : M A) (k : A -> M B) :
  oshift m -> (forall a, oshift (k a)) -> oshift (bind m k).
Proof.
  intros Hm Hk s o; unfold bind. rewrite Hm.
  destruct (m s) as [[a| e |] s1]; cbn [fst snd]; [apply Hk|reflexivity|reflexivity].
Qed.

Lemma ret_oshift {A} (a : A) : oshift (ret a).
Proof. intros s o; reflexivity. Qed.

Lemma throw_oshift {A} e : oshift (@throw A e).
Proof. intros s o; reflexivity. Qed.

Lemma panic_oshift {A} : oshift (@panic A).
Proof. intros s o; reflexivity. Qed.

Lemma liftr_oshift {A} (r : res A) : oshift (liftr r).
Proof. intros s o; destruct r; reflexivity. Qed.

Lemma get_dec_oshift : oshift get_dec.
Proof. intros s o; reflexivity. Qed.

Lemma put_dec_oshift d : oshift (put_dec d).
Proof. intros s o; reflexivity. Qed.

Lemma has_remaining_oshift : oshift has_remaining.
Proof. intros s o; reflexivity. Qed.

Lemma emit_oshift e : oshift (emit e).
Proof.
  intros s o; unfold emit, pre_out; cbn [fst snd dec buf out].
  rewrite app_assoc; reflexivity.
Qed.

Lemma on_buf_oshift {A} (f : list byte -> res (A * list byte)) : oshift (on_buf f).
Proof.
  intros s o; unfold on_buf, pre_out; cbn [buf dec out].
  destruct (f (buf s)) as [[a r]| e |]; reflexivity.
Qed.

Create HintDb oshift.
#[export] Hint Resolve bind_oshift ret_oshift throw_oshift panic_oshift liftr_oshift
  get_dec_oshift put_dec_oshift has_remaining_oshift emit_oshift on_buf_oshift : oshift.

Ltac oshift_step :=
  match goal with
  | |- oshift (bind _ _) => apply bind_oshift; [ | intro ]
  | |- oshift (match ?x with _ => _ end) => destruct x
  | |- oshift (if ?x then _ else _) => destruct x
  | _ => eauto with oshift
  end.

Lemma decode_block_oshift hd en ki cr : oshift (decode_block hd en ki cr).
Proof.
  unfold decode_block, decode_indexed, decode_literal, table_insert,
    take_max_size_update, process_size_update.
  repeat oshift_step.
Qed.

Lemma decode_loop_oshift hd en ki f cr : oshift (decode_loop hd en ki f cr).
Proof.
  revert cr; induction f as [|f IH]; intros cr; cbn [decode_loop];
    [apply panic_oshift|].
  apply bind_oshift; [apply has_remaining_oshift|]; intros rem.
  destruct rem; [|apply ret_oshift].
  apply bind_oshift; [apply decode_block_oshift|exact IH].
Qed.

Lemma decode_loop_prefix hd en ki f cr s s1 suf g :
  decode_loop hd en ki f cr s = (ROk tt, s1) ->
  exists cr1 k, (0 < k)%nat /\
    decode_loop hd en ki (f + g) cr (app_buf s suf)
    = decode_loop hd en ki (k + g) cr1 (app_buf s1 suf).
Proof.
  revert cr s; induction f as [|f IH]; intros cr s Hrun; cbn [decode_loop] in Hrun;
    [discriminate|].
  unfold bind at 1, has_remaining in Hrun.
  destruct (buf s) as [|c rest] eqn:Hb; cbn [negb] in Hrun.
  - injection Hrun as <-. exists cr, (S f); split; [lia|reflexivity].
  - unfold bind in Hrun.
    destruct (decode_block hd en ki cr s) as [[cr'| e |] s'] eqn:Hblk; try discriminate.
    destruct (IH cr' s' Hrun) as (cr1 & k & Hk & Heq).
    exists cr1, k; split; [exact Hk|].
    rewrite <- Heq. cbn [Nat.add decode_loop].
    unfold bind at 1, has_remaining, app_buf at 1; cbn [buf]. rewrite Hb; cbn [app negb].
    unfold bind at 1.
    rewrite (decode_block_ext hd en ki cr _ _ _ Hblk suf). reflexivity.
Qed.

(** X14: [decode] can be run piecewise: when a prefix decodes successfully
    and leaves no size update queued, decoding the prefix followed by a
    suffix gives the outcome and decoder of decoding the suffix from the
    decoder the prefix left, and the prefix's entries followed by the
    suffix's. *)
Theorem decode_split hd en ki d pre suf d1 o1 :
  decode hd en ki d pre = (ROk tt, d1, o1) -> max_size_update d1 = None ->
  decode hd en ki d (pre ++ suf) =
    let '(r, d2, o2) := decode hd en ki d1 suf in (r, d2, o1 ++ o2).
Proof.
  intros Hpre Hn. unfold decode in *.
  destruct (decode_loop hd en ki (S (List.length pre)) true (mkSt d pre [])) as [r s1]
    eqn:Hrun.
  injection Hpre as -> <- <-.
  pose proof (decode_loop_done _ _ _ _ _ _ _ Hrun) as Hdone.
  destruct (decode_loop_prefix hd en ki _ _ _ _ suf (List.length suf) Hrun)
    as (cr1 & k & Hk & Heq).
  rewrite length_app. replace (S (List.length pre + List.length suf))
    with (S (List.length pre) + List.length suf)%nat by lia.
  change (mkSt d (pre ++ suf) []) with (app_buf (mkSt d pre []) suf).
  rewrite Heq.
  assert (Hs : app_buf s1 suf = pre_out (out s1) (mkSt (dec s1) suf [])).
  { destruct s1 as [d1 b1 o1']; cbn in Hdone |- *; subst b1.
    unfold app_buf, pre_out; cbn; rewrite app_nil_r; reflexivity. }
  rewrite Hs.
  rewrite (decode_loop_fuel hd en ki (k + List.length suf) (S (List.length suf)))
    by (cbn; lia).
  rewrite (decode_loop_cr_irrelevant hd en ki _ cr1 true) by exact Hn.
  rewrite decode_loop_oshift.
  destruct (decode_loop hd en ki (S (List.length suf)) true (mkSt (dec s1) suf []))
    as [r2 s2]; reflexivity.
Qed.

(** Where an error can come from. *)
Definition errs_in {A} (Q : DecoderError -> Prop) (m : M A) : Prop :=
  forall s e s', m s = (RErr e, s') -> Q e.

Section ErrsIn.

Variable Q : DecoderError -> Prop.

Lemma bind_errs {A B} (m : M A) (k : A -> M B) :
  errs_in Q m -> (forall a, errs_in Q (k a)) -> errs_in Q (bind m k).
Proof.
  intros Hm Hk s e s'; unfold bind.
  destruct (m s) as [[a| e' |] s1] eqn:Hs; try discriminate.
  - apply Hk.
  - intros [= -> ->]; exact (Hm _ _ _ Hs).
Qed.

Lemma ret_errs {A} (a : A) : errs_in Q (ret a).
Proof. intros s e s'; discriminate. Qed.

Lemma panic_errs {A} : errs_in Q (@panic A).
Proof. intros s e s'; discriminate. Qed.

Lemma get_dec_errs : errs_in Q get_dec.
Proof. intros s e s'; discriminate. Qed.

Lemma put_dec_errs d : errs_in Q (put_dec d).
Proof. intros s e s'; discriminate. Qed.

Lemma emit_errs e : errs_in Q (emit e).
Proof. intros s e' s'; discriminate. Qed.

Lemma has_remaining_errs : errs_in Q has_remaining.
Proof. intros s e s'; discriminate. Qed.

Lemma throw_errs {A} e : Q e -> errs_in Q (@throw A e).
Proof. intros He s e' s' [= <-]; exact He. Qed.

Lemma liftr_errs {A} (r : res A) : (forall e, r = RErr e -> Q e) -> errs_in Q (liftr r).
Proof. intros Hr s e s'; destruct r; cbn; [discriminate| |discriminate]. intros [= <-]; auto. Qed.

Lemma on_buf_errs {A} (f : list byte -> res (A * list byte)) :
  (forall b e, f b = RErr e -> Q e) -> errs_in Q (on_buf f).
Proof.
  intros Hf s e s'; unfold on_buf.
  destruct (f (buf s)) as [[a r]| e' |] eqn:Hb; try discriminate.
  intros [= <-]; exact (Hf _ _ Hb).
Qed.

End ErrsIn.

Lemma load_no_err b e : load b <> RErr e.
Proof.
  intros H. assert (e = InvalidRepresentation).
  { revert H; unfold load.
    repeat match goal with |- context [if ?c then _ else _] => destruct c end;
      congruence. }
  subst e; exact (load_never_invalid b H).
Qed.

Lemma decode_int_fixed_prefix b n e :
  1 <= n <= 8 -> decode_int b n = RErr e -> e = IntegerUnderflow \/ e = IntegerOverflow.
Proof.
  intros Hn H. pose proof H as H'. apply decode_int_errors in H.
  destruct H as [->|H]; [|exact H].
  unfold decode_int in H'.
  replace ((n <? 1) || (8 <? n)) with false in H' by
    (symmetry; apply orb_false_iff; split; apply N.ltb_ge; lia).
  destruct b as [|c b]; [discriminate|].
  destruct (_ <? _); [discriminate|].
  apply decode_int_loop_errors in H'; destruct H'; discriminate.
Qed.

Section ErrorSources.

Variable hd : list byte -> res (list byte).
Variable en : list byte -> list byte -> res Entry.
Variable ki : Entry -> list byte -> res Entry.

(** The errors of the decoder's own checks, and those of its collaborators. *)
Definition decoder_errs (e : DecoderError) : Prop :=
  In e [InvalidTableIndex; InvalidMaxDynamicSize; IntegerUnderflow; IntegerOverflow;
        StringUnderflow] \/
  (exists raw, hd raw = RErr e) \/ (exists n v, en n v = RErr e) \/
  (exists x v, ki x v = RErr e).

Lemma decode_int_errs b n e :
  1 <= n <= 8 -> decode_int b n = RErr e -> decoder_errs e.
Proof.
  intros Hn H; left. destruct (decode_int_fixed_prefix b n e Hn H) as [->| ->]; simpl; tauto.
Qed.

Lemma get_errs t i e : get t i = RErr e -> decoder_errs e.
Proof. intros H; apply get_errors in H; subst e; left; simpl; tauto. Qed.

Lemma decode_string_errs b e : decode_string hd b = RErr e -> decoder_errs e.
Proof.
  unfold decode_string. destruct b as [|c b]; [discriminate|]. cbn [peek_u8 rbind].
  destruct (decode_int (c :: b) 7) as [[len rest]| e' |] eqn:Hi; cbn [rbind].
  - destruct (_ <? _); [intros [= <-]; left; simpl; tauto|].
    destruct (_ =? _); [|discriminate].
    destruct (hd _) eqn:Hh; cbn [rbind]; try discriminate.
    intros [= <-]; right; left; eexists; exact Hh.
  - intros [= <-]; apply (decode_int_errs (c :: b) 7); [lia|exact Hi].
  - discriminate.
Qed.

Lemma fixed_prefix_errs n :
  1 <= n <= 8 -> forall b e, decode_int b n = RErr e -> decoder_errs e.
Proof. intros Hn b e; apply decode_int_errs; exact Hn. Qed.

Ltac errs_step :=
  match goal with
  | |- errs_in _ (bind _ _) => apply bind_errs; [ | intro ]
  | |- errs_in _ (match ?x with _ => _ end) => destruct x eqn:?
  | |- errs_in _ (if ?x then _ else _) => destruct x
  | |- errs_in _ (on_buf (fun b => decode_int b ?n)) =>
      apply on_buf_errs; intros ? ?; apply fixed_prefix_errs; lia
  | |- errs_in _ (on_buf (decode_string _)) =>
      apply on_buf_errs; exact decode_string_errs
  | |- errs_in _ (on_buf (fun b => rbind (peek_u8 b) _)) =>
      apply on_buf_errs; intros [|? ?] ?; discriminate
  | |- errs_in _ (liftr (get _ _)) => apply liftr_errs; apply get_errs
  | |- errs_in _ (liftr (load _)) => apply liftr_errs; intros ? ?; exfalso; eapply load_no_err; eassumption
  | |- errs_in _ (liftr (hd ?r)) => apply liftr_errs; intros ? ?; right; left; eauto
  | |- errs_in _ (liftr (en ?n ?v)) => apply liftr_errs; intros ? ?; right; right; left; eauto
  | |- errs_in _ (liftr (ki ?x ?v)) => apply liftr_errs; intros ? ?; right; right; right; eauto
  | |- errs_in _ (throw _) => apply throw_errs; left; simpl; tauto
  | |- errs_in _ (ret _) => apply ret_errs
  | |- errs_in _ panic => apply panic_errs
  | |- errs_in _ get_dec => apply get_dec_errs
  | |- errs_in _ (put_dec _) => apply put_dec_errs
  | |- errs_in _ (emit _) => apply emit_errs
  | |- errs_in _ has_remaining => apply has_remaining_errs
  end.

Lemma decode_block_errs cr : errs_in decoder_errs (decode_block hd en ki cr).
Proof.
  unfold decode_block, decode_indexed, decode_literal, table_insert,
    take_max_size_update, process_size_update.
  repeat errs_step.
Qed.

End ErrorSources.

Lemma decode_loop_errs hd en ki f cr :
  errs_in (decoder_errs hd en ki) (decode_loop hd en ki f cr).
Proof.
  revert cr; induction f as [|f IH]; intros cr; cbn [decode_loop]; [apply panic_errs|].
  apply bind_errs; [apply has_remaining_errs|]; intros rem.
  destruct rem; [|apply ret_errs].
  apply bind_errs; [apply decode_block_errs|exact IH].
Qed.

(** X15: every error [decode] returns comes from one of its own checks
    ([InvalidTableIndex], [InvalidMaxDynamicSize], [IntegerUnderflow],
    [IntegerOverflow], [StringUnderflow]) or from a collaborator (the
    Huffman decoder, [Entry::new], [key_into_entry]); it never reports
    [InvalidIntegerPrefix] or [InvalidRepresentation] of its own. *)
Theorem decode_error_sources hd en ki d src e d' out :
  decode hd en ki d src = (RErr e, d', out) ->
  In e [InvalidTableIndex; InvalidMaxDynamicSize; IntegerUnderflow; IntegerOverflow;
        StringUnderflow] \/
  (exists raw, hd raw = RErr e) \/ (exists n v, en n v = RErr e) \/
  (exists x v, ki x v = RErr e).
Proof.
  unfold decode.
  destruct (decode_loop hd en ki _ true _) as [r s] eqn:Hrun.
  intros [= -> _ _]. exact (decode_loop_errs hd en ki _ _ _ _ _ Hrun).
Qed.

(** Errors that more input cannot turn into something else. *)
Definition final_err (e : DecoderError) : Prop :=
  e <> IntegerUnderflow /\ e <> StringUnderflow.

Definition err_stable {A} (f : list byte -> res (A * list byte)) : Prop :=
  forall b e, f b = RErr e -> final_err e -> forall suf, f (b ++ suf) = RErr e.

Definition errext {A} (m : M A) : Prop :=
  forall s e s', m s = (RErr e, s') -> final_err e ->
  forall suf, m (app_buf s suf) = (RErr e, app_buf s' suf).

Lemma bind_errext {A B} (m : M A) (k : A -> M B) :
  ext m -> errext m -> (forall a, errext (k a)) -> errext (bind m k).
Proof.
  intros Hx Hm Hk s e s' Hrun He suf; unfold bind in *.
  destruct (m s) as [[a| e' |] s1] eqn:Hs1; try discriminate.
  - rewrite (Hx _ _ _ Hs1 suf). exact (Hk a _ _ _ Hrun He suf).
  - injection Hrun as -> <-. rewrite (Hm _ _ _ Hs1 He suf); reflexivity.
Qed.

Lemma ret_errext {A} (a : A) : errext (ret a).
Proof. intros s e s'; discriminate. Qed.

Lemma panic_errext {A} : errext (@panic A).
Proof. intros s e s'; discriminate. Qed.

Lemma get_dec_errext : errext get_dec.
Proof. intros s e s'; discriminate. Qed.

Lemma put_dec_errext d : errext (put_dec d).
Proof. intros s e s'; discriminate. Qed.

Lemma emit_errext x : errext (emit x).
Proof. intros s e s'; discriminate. Qed.

Lemma throw_errext {A} e : errext (@throw A e).
Proof. intros s e' s' [= -> <-] _ suf; reflexivity. Qed.

Lemma liftr_errext {A} (r : res A) : errext (liftr r).
Proof. intros s e s'; destruct r; cbn; try discriminate. intros [= -> <-] _ suf; reflexivity. Qed.

Lemma on_buf_errext {A} (f : list byte -> res (A * list byte)) :
  err_stable f -> errext (on_buf f).
Proof.
  intros Hf s e s'; unfold on_buf.
  destruct (f (buf s)) as [[x r]| e' |] eqn:Hb; try discriminate.
  intros [= -> <-] He suf; unfold app_buf at 1; cbn [buf].
  rewrite (Hf _ _ Hb He suf); reflexivity.
Qed.

Lemma decode_int_loop_err_app b ret bytes shift e :
  decode_int_loop b ret bytes shift = RErr e -> final_err e ->
  forall suf, decode_int_loop (b ++ suf) ret bytes shift = RErr e.
Proof.
  revert ret bytes shift; induction b as [|c b IH]; intros ret bytes shift;
    cbn [decode_int_loop app]; [intros [= <-] [He _]; contradiction|].
  destruct (_ =? 0); [discriminate|].
  destruct (Nat.eqb _ _); [intros H _ _; exact H|]. apply IH.
Qed.

Lemma decode_int_err_stable n : err_stable (fun b => decode_int b n).
Proof.
  intros b e; unfold decode_int.
  destruct (_ || _); [intros H _ _; exact H|].
  destruct b as [|c b]; [intros [= <-] [He _]; contradiction|]. cbn [app].
  destruct (_ <? _); [discriminate|].
  apply decode_int_loop_err_app.
Qed.

Lemma peek_err_stable : err_stable (fun b => rbind (peek_u8 b) (fun x => ROk (x, b))).
Proof. intros [|c b] e; discriminate. Qed.

Lemma decode_string_err_stable hd : err_stable (decode_string hd).
Proof.
  intros b e; unfold decode_string.
  destruct b as [|c b]; [discriminate|]. cbn [app peek_u8 rbind].
  destruct (decode_int (c :: b) 7) as [[len rest]| e' |] eqn:Hi; cbn [rbind].
  - intros Hrun He suf.
    pose proof (decode_int_stable 7 _ _ _ Hi suf) as Hi'. cbn [app] in Hi'.
    rewrite Hi'; cbn [rbind].
    destruct (N.of_nat (List.length rest) <? len) eqn:Hlt;
      [injection Hrun as <-; destruct He; contradiction|].
    apply N.ltb_ge in Hlt.
    replace (N.of_nat (List.length (rest ++ suf)) <? len) with false
      by (symmetry; apply N.ltb_ge; rewrite length_app; lia).
    assert (Hn : (N.to_nat len - List.length rest = 0)%nat) by lia.
    rewrite firstn_app, Hn; cbn [firstn]; rewrite app_nil_r.
    destruct (_ =? _); [|discriminate].
    destruct (hd _); cbn [rbind] in *; congruence.
  - intros [= <-] He suf.
    pose proof (decode_int_err_stable 7 (c :: b) e' Hi He suf) as H; cbn [app] in H.
    rewrite H; reflexivity.
  - discriminate.
Qed.

Create HintDb errext.
#[export] Hint Resolve ret_errext panic_errext get_dec_errext put_dec_errext emit_errext
  throw_errext liftr_errext on_buf_errext decode_int_err_stable peek_err_stable
  decode_string_err_stable : errext.

Ltac errext_step :=
  match goal with
  | |- errext (bind _ _) => apply bind_errext; [repeat ext_step | | intro ]
  | |- errext (match ?x with _ => _ end) => destruct x
  | |- errext (if ?x then _ else _) => destruct x
  | _ => eauto with errext
  end.

Lemma decode_block_errext hd en ki cr : errext (decode_block hd en ki cr).
Proof.
  unfold decode_block, decode_indexed, decode_literal, table_insert,
    take_max_size_update, process_size_update.
  repeat errext_step.
Qed.

Lemma decode_loop_err_prefix hd en ki f cr s e s' suf g :
  decode_loop hd en ki f cr s = (RErr e, s') -> final_err e ->
  decode_loop hd en ki (f + g) cr (app_buf s suf) = (RErr e, app_buf s' suf).
Proof.
  revert cr s; induction f as [|f IH]; intros cr s Hrun He; cbn [decode_loop] in Hrun;
    [discriminate|].
  unfold bind at 1, has_remaining in Hrun.
  cbn [Nat.add decode_loop]. unfold bind at 1, has_remaining, app_buf at 1; cbn [buf].
  destruct (buf s) as [|c rest] eqn:Hb; cbn [negb app] in Hrun |- *; [discriminate|].
  unfold bind in Hrun |- *.
  destruct (decode_block hd en ki cr s) as [[cr'| e' |] s1] eqn:Hblk; try discriminate.
  - rewrite (decode_block_ext hd en ki cr _ _ _ Hblk suf). exact (IH cr' s1 Hrun He).
  - injection Hrun as -> <-.
    rewrite (decode_block_errext hd en ki cr _ _ _ Hblk He suf); reflexivity.
Qed.

(** X16: an error other than [IntegerUnderflow] and [StringUnderflow] does
    not depend on the bytes that follow: appending bytes to a block that
    fails with it gives the same error, the same decoder and the same
    entries passed to the sink. *)
Theorem decode_error_final hd en ki d pre suf e d' o :
  decode hd en ki d pre = (RErr e, d', o) ->
  e <> IntegerUnderflow -> e <> StringUnderflow ->
  decode hd en ki d (pre ++ suf) = (RErr e, d', o).
Proof.
  intros Hpre H1 H2. unfold decode in *.
  destruct (decode_loop hd en ki (S (List.length pre)) true (mkSt d pre [])) as [r s1]
    eqn:Hrun.
  injection Hpre as -> <- <-.
  rewrite length_app. replace (S (List.length pre + List.length suf))
    with (S (List.length pre) + List.length suf)%nat by lia.
  change (mkSt d (pre ++ suf) []) with (app_buf (mkSt d pre []) suf).
  rewrite (decode_loop_err_prefix hd en ki _ _ _ _ _ suf (List.length suf) Hrun (conj H1 H2)).
  reflexivity.
Qed.

(** Witnesses. *)

Lemma decode_int_reads_at_most_5_witness :
  decode_int [x1f; x9a; x0a; x00] 5 = ROk (1337, [x00]) /\
  exists used, [x1f; x9a; x0a; x00] = used ++ [x00] /\
    (1 <= List.length used <= 5)%nat /\ 1337 < 2 ^ 5 - 1 + 2 ^ 28.
Proof.
  assert (H : decode_int [x1f; x9a; x0a; x00] 5 = ROk (1337, [x00])) by (vm_compute; reflexivity).
  split; [exact H|]. exact (decode_int_reads_at_most_5 _ 5 1337 [x00] H).
Defined.

Lemma decode_int_encode_int_witness :
  decode_int (encode_int 5 1 1337 ++ [x00]) 5 = ROk (1337, [x00]) /\
  decode_int (encode_int 5 1 (2 ^ 5 - 1 + 2 ^ 28) ++ [x00]) 5 = RErr IntegerOverflow.
Proof.
  assert (Hn : 1 <= 5 <= 8) by lia.
  assert (Hhi : 1 < 2 ^ (8 - 5)) by (vm_compute; reflexivity).
  split.
  - apply (proj1 (decode_int_encode_int 5 1 1337 [x00] Hn Hhi)); vm_compute; reflexivity.
  - apply (proj2 (decode_int_encode_int 5 1 (2 ^ 5 - 1 + 2 ^ 28) [x00] Hn Hhi));
      vm_compute; discriminate.
Defined.

Lemma decode_string_literal_witness :
  decode_string huffman_reject (encode_string (bs "ab") ++ [x00]) = ROk (bs "ab", [x00]) /\
  decode_string huffman_reject (encode_int 7 1 1 ++ [x61] ++ [x00]) = RErr InvalidHuffmanCode.
Proof.
  destruct (decode_string_literal huffman_reject (bs "ab") [x61] [x00]) as [H1 H2].
  split.
  - apply H1; vm_compute; reflexivity.
  - etransitivity; [apply H2; vm_compute; reflexivity|reflexivity].
Defined.

Lemma decode_string_underflow_witness :
  decode_string huffman_reject (encode_int 7 0 3 ++ [x61]) = RErr StringUnderflow.
Proof. apply (decode_string_underflow huffman_reject 0 3 [x61]); vm_compute; reflexivity. Defined.

Lemma insert_fits_evicts_oldest_witness :
  let t := mkTable [Header (bs "a") (bs "1")] 34 60 in
  let e := Header (bs "b") (bs "2") in
  exists kept evicted,
    entries t = kept ++ evicted /\
    insert t e = Some (mkTable (e :: kept) (sum_len kept + entry_len e) (max_size t)) /\
    sum_len kept + entry_len e <= max_size t /\
    (forall x evicted', evicted = x :: evicted' ->
       max_size t < sum_len kept + entry_len x + entry_len e).
Proof.
  intros t e. apply (insert_fits_evicts_oldest t e); vm_compute; [reflexivity|discriminate].
Defined.

Lemma insert_then_get_witness :
  let t := mkTable [Header (bs "a") (bs "1")] 34 4096 in
  let e := Header (bs "b") (bs "2") in
  let t' := mkTable [e; Header (bs "a") (bs "1")] 68 4096 in
  get t' 62 = ROk e /\
  (forall k, k <= 61 -> get t' k = get t k) /\
  (forall k, 62 <= k -> k < 61 + N.of_nat (List.length (entries t')) ->
     get t' (k + 1) = get t k).
Proof.
  intros t e t'. apply (insert_then_get t e t'). vm_compute; reflexivity.
Defined.

Lemma indexed_block_witness :
  run default (encode_int 7 1 2) = (ROk tt, default, [Method (bs "GET")]) /\
  run default (encode_int 7 1 62) = (RErr InvalidTableIndex, default, []).
Proof.
  assert (Hi : 2 < 127 + 2 ^ 28) by (vm_compute; reflexivity).
  assert (Hj : 62 < 127 + 2 ^ 28) by (vm_compute; reflexivity).
  split.
  - apply (proj1 (indexed_block huffman_reject entry_new_plain key_into_entry_plain
                    default 2 Hi)); vm_compute; reflexivity.
  - apply (proj2 (indexed_block huffman_reject entry_new_plain key_into_entry_plain
                    default 62 Hj)); vm_compute; reflexivity.
Defined.

Lemma size_update_block_witness :
  run default (encode_int 5 1 100) = (RErr InvalidMaxDynamicSize, default, []) /\
  run (queue_size_update default 50) (encode_int 5 1 100)
    = (RErr InvalidMaxDynamicSize, mkDecoder None (table default), []) /\
  exists t', set_max_size (table default) 100 = Some t' /\
    run (queue_size_update default 200) (encode_int 5 1 100) = (ROk tt, mkDecoder None t', []).
Proof.
  assert (Hv : 100 < 31 + 2 ^ 28) by (vm_compute; reflexivity).
  destruct (size_update_block huffman_reject entry_new_plain key_into_entry_plain
              (queue_size_update default 50) 100 Hv) as (H1 & _ & H3 & _).
  destruct (size_update_block huffman_reject entry_new_plain key_into_entry_plain
              (queue_size_update default 200) 100 Hv) as (_ & _ & _ & H4).
  split; [exact H1|]. split.
  - apply (H3 50); vm_compute; reflexivity.
  - apply (H4 200); vm_compute; [reflexivity|discriminate|reflexivity].
Defined.

Lemma literal_without_indexing_block_witness :
  run default (encode_int 4 0 0 ++ encode_string (bs "a") ++ encode_string (bs "b"))
    = (ROk tt, default, [Header (bs "a") (bs "b")]) /\
  run default (encode_int 4 1 8 ++ encode_string (bs "b"))
    = (RErr InvalidStatusCode, default, []) /\
  run default (encode_int 4 1 70 ++ encode_string (bs "b"))
    = (RErr InvalidTableIndex, default, []).
Proof.
  assert (H1 : 1 < 2) by lia. assert (H0 : 0 < 2) by lia.
  assert (Hl : N.of_nat (List.length (bs "a")) < 127 + 2 ^ 28) by (vm_compute; reflexivity).
  assert (Hv : N.of_nat (List.length (bs "b")) < 127 + 2 ^ 28) by (vm_compute; reflexivity).
  destruct (literal_without_indexing_block huffman_reject entry_new_plain
              key_into_entry_plain default 0 (bs "a") (bs "b") H0 Hl Hv)
    as (Ha & _ & _ & _ & _).
  destruct (literal_without_indexing_block huffman_reject entry_new_plain
              key_into_entry_plain default 1 (bs "a") (bs "b") H1 Hl Hv)
    as (_ & _ & _ & Hb & Hc).
  split; [apply Ha; reflexivity|]. split.
  - eapply (Hb 8); [vm_compute; split; [discriminate|reflexivity] | reflexivity | reflexivity].
  - apply (Hc 70); [vm_compute; split; [discriminate|reflexivity] | vm_compute; reflexivity].
Defined.

Lemma literal_with_indexing_block_witness :
  exists t', insert (table default) (Header (bs "a") (bs "b")) = Some t' /\
    get t' 62 = ROk (Header (bs "a") (bs "b")) /\
    run default (encode_int 6 1 0 ++ encode_string (bs "a") ++ encode_string (bs "b"))
    = (ROk tt, mkDecoder None t', [Header (bs "a") (bs "b")]).
Proof.
  assert (Hs : size (table default) = sum_len (entries (table default))) by reflexivity.
  assert (Hv : N.of_nat (List.length (bs "b")) < 127 + 2 ^ 28) by (vm_compute; reflexivity).
  apply (proj1 (literal_with_indexing_block huffman_reject entry_new_plain
                  key_into_entry_plain default (bs "a") (bs "b") Hs Hv));
    vm_compute; [reflexivity|reflexivity|discriminate].
Defined.

Lemma decode_respects_ceiling_witness :
  let d := queue_size_update default 100 in
  let src := [x3f; x21; x82] in
  (max_size_update (snd (fst (run d src))) = max_size_update d \/
   max_size_update (snd (fst (run d src))) = None) /\
  (max_size (table (snd (fst (run d src)))) = max_size (table d) \/
   exists c, max_size_update d = Some c /\ max_size (table (snd (fst (run d src)))) <= c).
Proof.
  intros d src.
  apply (decode_respects_ceiling huffman_reject entry_new_plain key_into_entry_plain d src
           (fst (fst (run d src))) (snd (fst (run d src))) (snd (run d src)));
    vm_compute; [reflexivity|discriminate].
Defined.

Lemma decode_split_witness :
  let d := queue_size_update default 100 in
  run d ([x3f; x21] ++ [x82; xbe]) =
    let '(r, d2, o2) := run (snd (fst (run d [x3f; x21]))) [x82; xbe] in
    (r, d2, snd (run d [x3f; x21]) ++ o2).
Proof.
  intros d.
  apply (decode_split huffman_reject entry_new_plain key_into_entry_plain d [x3f; x21]
           [x82; xbe] (snd (fst (run d [x3f; x21]))) (snd (run d [x3f; x21])));
    vm_compute; reflexivity.
Defined.

Lemma decode_error_sources_witness :
  let src := [x00; x81; x61; x01; x62] in
  fst (fst (run default src)) = RErr InvalidHuffmanCode /\
  (In InvalidHuffmanCode [InvalidTableIndex; InvalidMaxDynamicSize; IntegerUnderflow;
     IntegerOverflow; StringUnderflow] \/
   (exists raw, huffman_reject raw = RErr InvalidHuffmanCode) \/
   (exists n v, entry_new_plain n v = RErr InvalidHuffmanCode) \/
   (exists x v, key_into_entry_plain x v = RErr InvalidHuffmanCode)).
Proof.
  intros src. split; [vm_compute; reflexivity|].
  apply (decode_error_sources huffman_reject entry_new_plain key_into_entry_plain default src
           InvalidHuffmanCode (snd (fst (run default src))) (snd (run default src))).
  vm_compute; reflexivity.
Defined.

Lemma decode_error_final_witness :
  run default ([x82; xbf] ++ [x01; x02]) = (RErr InvalidTableIndex, default, [Method (bs "GET")]).
Proof.
  apply (decode_error_final huffman_reject entry_new_plain key_into_entry_plain default
           [x82; xbf] [x01; x02] InvalidTableIndex default [Method (bs "GET")]);
    [vm_compute; reflexivity|discriminate|discriminate].
Defined.
